(** * createPausable: the pause / resume / stop controller of rx-add-ons

    Shallow embedding of [src/pausable.ts].  The controller is the pipeline

      control$ . startWith('stop') . scan(reducer, 'stopped') . switchMap(gate)

    subscribed once to the caller's observer.  The RxJS operators it is
    built from are embedded as the event handlers they install: every
    handler is a function on the state of one controller instance.

    Scope: the caller and the producer's environment act one after the
    other (the observer does not call the handle from inside a
    notification), and the observer's callbacks do not throw. *)

From Stdlib Require Import List Arith Bool Lia ZArith.
Import ListNotations.

Set Implicit Arguments.

(** ** Commands and lifecycle states *)

(** The strings accepted by [control$]: 'start' | 'stop' | 'pause' | 'resume'. *)
Inductive Action : Type := Start | Stop | Pause | Resume.

(** The strings produced by the reducer: 'stopped' | 'running' | 'paused'. *)
Inductive State : Type := Stopped | Running | Paused.

Definition action_eqb (a b : Action) : bool :=
  match a, b with
  | Start, Start | Stop, Stop | Pause, Pause | Resume, Resume => true
  | _, _ => false
  end.

Definition state_eqb (s t : State) : bool :=
  match s, t with
  | Stopped, Stopped | Running, Running | Paused, Paused => true
  | _, _ => false
  end.

(** The accumulator handed to [scan] (pausable.ts, lines 20-26), one test
    per [if] of the source, in the source's order. *)
Definition reducer (state : State) (action : Action) : State :=
  if action_eqb action Start && negb (state_eqb state Running) then Running
  else if action_eqb action Stop then Stopped
  else if action_eqb action Pause && state_eqb state Running then Paused
  else if action_eqb action Resume && state_eqb state Paused then Running
  else state.

(** The transition table of section 4.1 of the specification, row by row. *)
Definition transition (current : State) (command : Action) : State :=
  match current, command with
  | Stopped, Start => Running | Stopped, Stop => Stopped
  | Stopped, Pause => Stopped | Stopped, Resume => Stopped
  | Running, Start => Running | Running, Stop => Stopped
  | Running, Pause => Paused  | Running, Resume => Running
  | Paused,  Start => Running | Paused,  Stop => Stopped
  | Paused,  Pause => Paused  | Paused,  Resume => Running
  end.

(** [startWith] and [scan] as functions on the finite history of a stream:
    [scan f seed] emits one accumulated value per input. *)
Definition startWith {A : Type} (first : A) (xs : list A) : list A := first :: xs.

Fixpoint scan {A B : Type} (f : B -> A -> B) (seed : B) (xs : list A) : list B :=
  match xs with
  | [] => []
  | x :: rest => let acc := f seed x in acc :: scan f acc rest
  end.

(** Number of states equal to [Running] that the table yields along a
    command sequence started in [s]. *)
Fixpoint entries (s : State) (cmds : list Action) : nat :=
  match cmds with
  | [] => 0
  | a :: rest =>
      let s' := transition s a in
      (if state_eqb s' Running then 1 else 0) + entries s' rest
  end.

(** ** Notifications and observables *)

Inductive Notification (T E : Type) : Type :=
| Next (value : T)
| Error (err : E)
| Complete.

Arguments Next {T E} value.
Arguments Error {T E} err.
Arguments Complete {T E}.

Definition is_value {T E : Type} (n : Notification T E) : Prop :=
  match n with Next _ => True | _ => False end.

(** What a subscriber passes on from a burst of notifications: the values
    up to the first terminal notification, and that notification when it
    is an error. *)
Fixpoint forwarded {T E : Type} (ns : list (Notification T E)) : list (Notification T E) :=
  match ns with
  | [] => []
  | Next v :: rest => Next v :: forwarded rest
  | Error e :: _ => [Error e]
  | Complete :: _ => []
  end.

(** The wrapped producer [source$] seen from its single consumer.  [P] is
    the state of the producer, [X] the events of its environment (a timer
    tick, a value pushed into a subject).  [subscribe] returns what is
    emitted synchronously during the call; [unsubscribe] is the teardown
    run when the subscription is released; [react] is the producer's
    behaviour on an environment event. *)
Record Observable (X T E P : Type) : Type := {
  subscribe : P -> list (Notification T E) * P;
  unsubscribe : P -> P;
  react : X -> P -> list (Notification T E) * P
}.

(** [of(v1, ..., vn)]: cold, emits its values and completes inside subscribe. *)
Definition of_ {X T E : Type} (values : list T) : Observable X T E unit := {|
  subscribe := fun p => (map Next values ++ [Complete], p);
  unsubscribe := fun p => p;
  react := fun _ p => ([], p)
|}.

(** [throwError(() => err)]: raises [err] inside subscribe. *)
Definition throwError {X T E : Type} (err : E) : Observable X T E unit := {|
  subscribe := fun p => ([Error err], p);
  unsubscribe := fun p => p;
  react := fun _ p => ([], p)
|}.

(** [interval(period)]: cold timer.  The environment event is the passing
    of one time unit.  The state is [None] when no timer is armed and
    [Some (elapsed, n)] when the timer has run [elapsed] units since it last
    fired and will emit [n] next. *)
Definition interval {E : Type} (period : nat) : Observable unit nat E (option (nat * nat)) := {|
  subscribe := fun _ => ([], Some (0, 0));
  unsubscribe := fun _ => None;
  react := fun _ p =>
    match p with
    | None => ([], None)
    | Some (elapsed, n) =>
        if S elapsed =? period then ([Next n], Some (0, S n))
        else ([], Some (S elapsed, n))
    end
|}.


(** [new Subject()], a hot source: the environment pushes values into it
    and a subscriber hears those pushed while it is subscribed. *)
Definition subject {T E : Type} : Observable T T E unit := {|
  subscribe := fun p => ([], p);
  unsubscribe := fun p => p;
  react := fun v p => ([Next v], p)
|}.

(** A producer that only ever emits values, whatever its state. *)
Definition only_values {X T E P : Type} (source : Observable X T E P) : Prop :=
  (forall p, Forall is_value (fst (subscribe source p))) /\
  (forall x p, Forall is_value (fst (react source x p))).


(** A producer that raises [err] synchronously whenever it is subscribed. *)
Definition throws_on_subscribe {X T E P : Type} (source : Observable X T E P) (err : E) : Prop :=
  forall p, exists rest, fst (subscribe source p) = Error err :: rest.

(** ** The controller *)

(** Everything one call of [createPausable] owns. *)
Record Controller (T E P : Type) : Type := {
  producer : P;                          (* state of source$ *)
  pipelines : nat;                       (* calls of controlled$.subscribe so far *)
  closed : bool;                         (* the subscriber bound to the observer is closed,
                                            and with it the subscription to control$ *)
  state : State;                         (* accumulator of scan *)
  innerSubscriber : bool;                (* switchMap holds an open subscriber on source$ *)
  isComplete : bool;                     (* switchMap has seen control$ complete *)
  received : list (Notification T E);    (* what the observer was handed, oldest first *)
  subscribes : nat;                      (* calls of source$.subscribe so far *)
  unsubscribes : nat                     (* teardowns of subscriptions to source$ so far *)
}.

(** The keys of the object returned by [createPausable] (lines 36-43). *)
Inductive Method : Type :=
| MStart | MStop | MPause | MResume
| MCommand (action : Action).

Definition action_of (m : Method) : Action :=
  match m with
  | MStart => Start | MStop => Stop | MPause => Pause | MResume => Resume
  | MCommand action => action
  end.

(** What can happen to a controller: the caller invokes a method of the
    handle, or the environment of the producer moves. *)
Inductive Event (X : Type) : Type :=
| Call (m : Method)
| Env (x : X).

Arguments Call {X} m.
Arguments Env {X} x.

Definition actions {X : Type} (evs : list (Event X)) : list Action :=
  flat_map (fun ev => match ev with Call m => [action_of m] | Env _ => [] end) evs.

Definition inputs {X : Type} (evs : list (Event X)) : list X :=
  flat_map (fun ev => match ev with Call _ => [] | Env x => [x] end) evs.

Definition is_start {X : Type} (ev : Event X) : bool :=
  match ev with Call m => action_eqb (action_of m) Start | Env _ => false end.

Definition is_pause_or_resume {X : Type} (ev : Event X) : bool :=
  match ev with
  | Call m => action_eqb (action_of m) Pause || action_eqb (action_of m) Resume
  | Env _ => true
  end.

(** The values pushed by the environment while the table has the
    controller in [Running], for a controller that is in state [s]. *)
Fixpoint gated {T : Type} (s : State) (evs : list (Event T)) : list T :=
  match evs with
  | [] => []
  | Call m :: rest => gated (transition s (action_of m)) rest
  | Env v :: rest => (if state_eqb s Running then [v] else []) ++ gated s rest
  end.

Section Pausable.

Context {X T E P : Type}.
Variable source : Observable X T E P.

Local Abbreviation Ctl := (Controller T E P).

(** *** Field updates *)

Definition set_producer (p : P) (c : Ctl) : Ctl :=
  {| producer := p; pipelines := pipelines c; closed := closed c; state := state c;
     innerSubscriber := innerSubscriber c; isComplete := isComplete c;
     received := received c; subscribes := subscribes c;
     unsubscribes := unsubscribes c |}.

Definition set_closed (b : bool) (c : Ctl) : Ctl :=
  {| producer := producer c; pipelines := pipelines c; closed := b; state := state c;
     innerSubscriber := innerSubscriber c; isComplete := isComplete c;
     received := received c; subscribes := subscribes c;
     unsubscribes := unsubscribes c |}.

Definition set_state (s : State) (c : Ctl) : Ctl :=
  {| producer := producer c; pipelines := pipelines c; closed := closed c; state := s;
     innerSubscriber := innerSubscriber c; isComplete := isComplete c;
     received := received c; subscribes := subscribes c;
     unsubscribes := unsubscribes c |}.

Definition set_innerSubscriber (b : bool) (c : Ctl) : Ctl :=
  {| producer := producer c; pipelines := pipelines c; closed := closed c; state := state c;
     innerSubscriber := b; isComplete := isComplete c;
     received := received c; subscribes := subscribes c;
     unsubscribes := unsubscribes c |}.

Definition hand (n : Notification T E) (c : Ctl) : Ctl :=
  {| producer := producer c; pipelines := pipelines c; closed := closed c; state := state c;
     innerSubscriber := innerSubscriber c; isComplete := isComplete c;
     received := received c ++ [n]; subscribes := subscribes c;
     unsubscribes := unsubscribes c |}.

(** [source$.subscribe(...)]: the call is counted, the synchronous
    emissions are returned to the caller. *)
Definition subscribe_source (c : Ctl) : list (Notification T E) * Ctl :=
  let (ns, p) := subscribe source (producer c) in
  (ns,
   {| producer := p; pipelines := pipelines c; closed := closed c; state := state c;
      innerSubscriber := true; isComplete := isComplete c;
      received := received c; subscribes := S (subscribes c);
      unsubscribes := unsubscribes c |}).

(** Teardown of the subscription to [source$]. *)
Definition release (c : Ctl) : Ctl :=
  {| producer := unsubscribe source (producer c); pipelines := pipelines c;
     closed := closed c; state := state c;
     innerSubscriber := innerSubscriber c; isComplete := isComplete c;
     received := received c; subscribes := subscribes c;
     unsubscribes := S (unsubscribes c) |}.

(** *** The subscriber bound to the observer (line 34) *)

(** [innerSubscriber?.unsubscribe()]: closes the inner subscriber and
    runs the producer's teardown; nothing happens on a closed one. *)
Definition unsubscribe_inner (c : Ctl) : Ctl :=
  if innerSubscriber c then set_innerSubscriber false (release c) else c.

(** Unsubscription of the whole chain: the subscription to [control$] is
    removed and the inner subscriber, a child of the chain, goes too. *)
Definition teardown (c : Ctl) : Ctl :=
  unsubscribe_inner (set_closed true c).

Definition sink_next (v : T) (c : Ctl) : Ctl :=
  if closed c then c else hand (Next v) c.

Definition sink_error (e : E) (c : Ctl) : Ctl :=
  if closed c then c else teardown (hand (Error e) c).

Definition sink_complete (c : Ctl) : Ctl :=
  if closed c then c else teardown (hand Complete c).

(** *** switchMap (lines 27-30) *)

(** The two observables the projection chooses from. *)
Inductive Inner : Type := Source | EMPTY.

Definition project (s : State) : Inner :=
  if state_eqb s Running then Source else EMPTY.

(** [checkComplete]: isComplete && !innerSubscriber && subscriber.complete(). *)
Definition checkComplete (c : Ctl) : Ctl :=
  if isComplete c && negb (innerSubscriber c) then sink_complete c else c.

(** Handlers of the inner subscriber: values go to the subscriber
    downstream; completion clears [innerSubscriber], runs [checkComplete]
    and releases the subscription; an error is passed downstream. *)
Definition inner_notify (n : Notification T E) (c : Ctl) : Ctl :=
  match n with
  | Next v => sink_next v c
  | Complete => release (checkComplete (set_innerSubscriber false c))
  | Error e => sink_error e c
  end.

(** A burst of notifications from the producer; a closed inner
    subscriber ignores what is left of it. *)
Fixpoint deliver (ns : list (Notification T E)) (c : Ctl) : Ctl :=
  match ns with
  | [] => c
  | n :: rest => if innerSubscriber c then deliver rest (inner_notify n c) else c
  end.

(** The handler for a state arriving from [scan]. *)
Definition switchMap_next (s : State) (c : Ctl) : Ctl :=
  let c := unsubscribe_inner c in
  match project s with
  | Source => let (ns, c') := subscribe_source c in deliver ns c'
  | EMPTY => checkComplete (set_innerSubscriber false c)
  end.

(** *** scan (lines 20-26) and control$ *)

Definition scan_next (action : Action) (c : Ctl) : Ctl :=
  let s := reducer (state c) action in
  switchMap_next s (set_state s c).

(** [control$.next(action)]: a subject notifies its current observers. *)
Definition control_next (action : Action) (c : Ctl) : Ctl :=
  if closed c then c else scan_next action c.

(** *** createPausable *)

(** [p0] is the state of [source$] at the time of the call.  Line 34 is
    the only subscription to [controlled$]; on it [startWith] emits
    'stop' into [scan], seeded with 'stopped', before [control$] is
    listened to. *)
Definition createPausable (p0 : P) : Ctl :=
  scan_next Stop
    {| producer := p0; pipelines := 1; closed := false; state := Stopped;
       innerSubscriber := false; isComplete := false; received := [];
       subscribes := 0; unsubscribes := 0 |}.

Definition start (c : Ctl) : Ctl := control_next Start c.
Definition stop (c : Ctl) : Ctl := control_next Stop c.
Definition pause (c : Ctl) : Ctl := control_next Pause c.
Definition resume (c : Ctl) : Ctl := control_next Resume c.
Definition command (action : Action) (c : Ctl) : Ctl := control_next action c.

Definition invoke (m : Method) (c : Ctl) : Ctl :=
  match m with
  | MStart => start c
  | MStop => stop c
  | MPause => pause c
  | MResume => resume c
  | MCommand action => command action c
  end.

(** An event of the producer's environment. *)
Definition environment (x : X) (c : Ctl) : Ctl :=
  let (ns, p) := react source x (producer c) in
  deliver ns (set_producer p c).

Definition step (c : Ctl) (ev : Event X) : Ctl :=
  match ev with
  | Call m => invoke m c
  | Env x => environment x c
  end.

Definition run (evs : list (Event X)) (c : Ctl) : Ctl := fold_left step evs c.


(** What holds of a controller at every point of its life. *)
Record inv (c : Ctl) : Prop := {
  inv_pipelines : pipelines c = 1;
  inv_isComplete : isComplete c = false;
  inv_inner : innerSubscriber c = true -> state c = Running /\ closed c = false;
  inv_count : subscribes c = unsubscribes c + (if innerSubscriber c then 1 else 0);
  inv_values : closed c = false -> Forall is_value (received c);
  inv_no_complete : ~ In Complete (received c)
}.

(** The shape of a controller on a producer that never terminates: the
    pipeline is open and a subscription is held exactly in [Running]. *)
Definition steady (c : Ctl) : Prop :=
  closed c = false /\ innerSubscriber c = state_eqb (state c) Running.


End Pausable.


(** ** Scenarios of the test suite *)

(** [n] time units passing. *)
Definition advanceTimersByTime {X : Type} (tick : X) (n : nat) : list (Event X) :=
  repeat (Env tick) n.

(** start at t=0, pause at t=150, resume at t=350, observe at t=450. *)
Definition pause_resume_scenario : list (Event unit) :=
  [Call MStart] ++ advanceTimersByTime tt 150 ++
  [Call MPause] ++ advanceTimersByTime tt 200 ++
  [Call MResume] ++ advanceTimersByTime tt 100.

(** start, then 250 time units: the controller is running. *)
Definition running_scenario : list (Event unit) :=
  [Call MStart] ++ advanceTimersByTime tt 250.

(** start, 150 time units, pause: the controller is paused. *)
Definition paused_scenario : list (Event unit) :=
  [Call MStart] ++ advanceTimersByTime tt 150 ++ [Call MPause].

(** One call of each command. *)
Definition commands_scenario : list (Event unit) :=
  [Call MStart; Call MPause; Call MResume; Call MStop].

(** Pauses and resumes, by name and through [command], before any start. *)
Definition idle_scenario : list (Event unit) :=
  [Call MPause; Call MResume; Env tt; Call (MCommand Pause); Call (MCommand Resume)].

(** The producers of the test suite: [of(1, 2, 3)], [interval(100)] and
    [throwError(() => 7)]; time is their only environment. *)
Definition of_123 : Observable unit nat nat unit := of_ [1; 2; 3].

Definition interval_100 : Observable unit nat nat (option (nat * nat)) := interval 100.

Definition throwError_7 : Observable unit nat nat unit := throwError 7.


(** * The operators with a history: tapWhile, filter, skipWhile

    Each operator is a function [source => { ...; return source.pipe(...) }]:
    the variables declared in its body belong to one application of the
    operator to a source and are shared by every subscription to the
    result, whereas the counters RxJS keeps inside [filter] and [skipWhile]
    belong to one subscription.  A subscription is embedded as the
    function that consumes the values the source emits, threading the
    variables.  User callbacks are total functions (they do not throw). *)

(** types.ts: [Fn<T, R> = (value, index, all) => R]. *)
Definition Fn (T R : Type) : Type := T -> nat -> list T -> R.
Definition Predicate (T : Type) : Type := Fn T bool.

(** src/tapWhile.ts.  The result is the list of values [sideEffect] was
    called with; the values themselves pass through [tap] unchanged. *)
Module TapWhile.

Definition next {T : Type} (predicate : T -> bool) (value : T) : list T :=
  if predicate value then [value] else [].

Definition tapWhile {T : Type} (predicate : T -> bool) (values : list T) : list T :=
  flat_map (next predicate) values.

End TapWhile.

(** src/tap.ts. *)
Module Tap.

(** [const all: T[] = []; let index = 0] (lines 10-11). *)
Record Closure (T : Type) : Type := { all : list T; index : nat }.

Definition applied {T : Type} : Closure T := {| all := []; index := 0 |}.

(** The two taps on one value: the first pushes it, the second calls the
    predicate and, if it holds, the side effect with the same arguments,
    recorded here as (value, index, contents of [all] at the call). *)
Definition next {T : Type} (predicate : Predicate T) (value : T) (st : Closure T)
  : Closure T * list (T * nat * list T) :=
  let all' := all st ++ [value] in
  let check := predicate value (index st) all' in
  ({| all := all'; index := S (index st) |},
   if check then [(value, index st, all')] else []).

Fixpoint tapWhile {T : Type} (predicate : Predicate T) (values : list T) (st : Closure T)
  : Closure T * list (T * nat * list T) :=
  match values with
  | [] => (st, [])
  | value :: rest =>
      let (st1, calls1) := next predicate value st in
      let (st2, calls2) := tapWhile predicate rest st1 in
      (st2, calls1 ++ calls2)
  end.

End Tap.

(** src/filter.ts. *)
Module Filter.

(** [filter]: [all] is the array of line 58, [index] the counter RxJS's
    own filter passes to its predicate, 0 at the start of a subscription.
    Returns the new [all], the new [index] and what is emitted. *)
Definition next {T : Type} (predicate : Predicate T) (value : T)
    (all : list T) (index : nat) : list T * nat * list T :=
  let all' := all ++ [value] in
  (all', S index, if predicate value index all' then [value] else []).

Fixpoint filter {T : Type} (predicate : Predicate T) (values : list T)
    (all : list T) (index : nat) : list T * list T :=
  match values with
  | [] => (all, [])
  | value :: rest =>
      let '(all1, index1, out1) := next predicate value all index in
      let (all2, out2) := filter predicate rest all1 index1 in
      (all2, out1 ++ out2)
  end.

(** The predicate of the documentation (lines 27-32) and of the tests:
    [all.filter(v => v === value).length === 1]. *)
Definition first_occurrence {T : Type} (strict_eq : T -> T -> bool) : Predicate T :=
  fun value _ all => length (List.filter (fun v => strict_eq v value) all) =? 1.

(** [filter.changed].  The three shapes of [compareBy] the code
    distinguishes: a function of two parameters, any other function, and a
    property key (through the accessor [value => value[key]]). *)
Inductive CompareBy (T K : Type) : Type :=
| CompareFunction (compare : T -> T -> bool)
| KeySelectorFunction (keySelector : T -> K)
| PropertyKey (key : T -> K).

Arguments CompareFunction {T K} compare.
Arguments KeySelectorFunction {T K} keySelector.
Arguments PropertyKey {T K} key.

(** Lines 104-123; [strict_eq] is [===] on keys. *)
Definition hasChanged {T K : Type} (strict_eq : K -> K -> bool)
    (compareBy : CompareBy T K) (lastValue currentValue : T) : bool :=
  match compareBy with
  | CompareFunction compare => compare lastValue currentValue
  | KeySelectorFunction keySelector =>
      negb (strict_eq (keySelector lastValue) (keySelector currentValue))
  | PropertyKey key => negb (strict_eq (key lastValue) (key currentValue))
  end.

(** The predicate given to RxJS's filter (lines 97-130).  [hasValue] and
    [lastValue] are one option: [None] is [hasValue = false]. *)
Definition changed_next {T K : Type} (strict_eq : K -> K -> bool)
    (compareBy : CompareBy T K) (currentValue : T) (lastValue : option T)
  : option T * list T :=
  match lastValue with
  | None => (Some currentValue, [currentValue])
  | Some last =>
      if hasChanged strict_eq compareBy last currentValue
      then (Some currentValue, [currentValue])
      else (Some last, [])
  end.

Fixpoint changed {T K : Type} (strict_eq : K -> K -> bool)
    (compareBy : CompareBy T K) (values : list T) (lastValue : option T)
  : option T * list T :=
  match values with
  | [] => (lastValue, [])
  | value :: rest =>
      let (last1, out1) := changed_next strict_eq compareBy value lastValue in
      let (last2, out2) := changed strict_eq compareBy rest last1 in
      (last2, out1 ++ out2)
  end.

End Filter.

(** skip.ts (its test imports it as './skip'). *)
Module Skip.

(** [all] is the array of the operator; [taking] and [index] are the
    variables of RxJS's skipWhile, [false] and 0 at the start of a
    subscription:
    [(taking || (taking = !predicate(value, index++))) && subscriber.next(value)]. *)
Definition next {T : Type} (predicate : Predicate T) (value : T)
    (all : list T) (taking : bool) (index : nat) : list T * bool * nat * list T :=
  let all' := all ++ [value] in
  if taking then (all', true, index, [value])
  else if predicate value index all' then (all', false, S index, [])
  else (all', true, S index, [value]).

Fixpoint skipWhile {T : Type} (predicate : Predicate T) (values : list T)
    (all : list T) (taking : bool) (index : nat) : list T * list T :=
  match values with
  | [] => (all, [])
  | value :: rest =>
      let '(all1, taking1, index1, out1) := next predicate value all taking index in
      let (all2, out2) := skipWhile predicate rest all1 taking1 index1 in
      (all2, out1 ++ out2)
  end.

End Skip.

(** Each value of a list with its position and the history up to and
    including it, after an earlier history [before] and counting positions
    from [start]. *)
Definition with_history {T : Type} (before : list T) (start : nat) (values : list T)
  : list (T * nat * list T) :=
  map (fun vi : T * nat =>
         (fst vi, start + snd vi, before ++ firstn (S (snd vi)) values))
      (combine values (seq 0 (length values))).

(** * groupByTime.ts, the branch with a maximum buffer size

    [groupByTime(min, max)] with a truthy [max] returns the observable of
    lines 31-67, embedded here; without it the result is RxJS's
    [buffer(timer(min, min))], which is not.  Time is what [Date.now()]
    returns: every notification of the source comes with the reading the
    handler would make, an integer number of milliseconds. *)
Module GroupByTime.

(** [let buffer: T[] = []; let windowStart = Date.now()] (lines 32-33). *)
Record Window (T : Type) : Type := { buffer : list T; windowStart : Z }.

Arguments buffer {T} w.
Arguments windowStart {T} w.

Definition subscribed {T : Type} (now : Z) : Window T :=
  {| buffer := []; windowStart := now |}.

(** The [next] handler (lines 36-48). *)
Definition next {T E : Type} (min max : Z) (value : T) (now : Z) (w : Window T)
  : Window T * list (Notification (list T) E) :=
  let buffer' := buffer w ++ [value] in
  if (Z.of_nat (length buffer') >=? max)%Z || (now - windowStart w >=? min)%Z then
    if 0 <? length buffer'
    then ({| buffer := []; windowStart := now |}, [Next buffer'])
    else ({| buffer := buffer'; windowStart := windowStart w |}, [])
  else ({| buffer := buffer'; windowStart := windowStart w |}, []).

(** The [error] handler (lines 49-56). *)
Definition error {T E : Type} (err : E) (w : Window T) : list (Notification (list T) E) :=
  (if 0 <? length (buffer w) then [Next (buffer w)] else []) ++ [Error err].

(** The [complete] handler (lines 57-63). *)
Definition complete {T E : Type} (w : Window T) : list (Notification (list T) E) :=
  (if 0 <? length (buffer w) then [Next (buffer w)] else []) ++ [Complete].

(** One subscription fed the notifications of the shared source, each
    with its clock reading.  The result is what the subscriber is handed
    and the variables left, [None] once the subscriber has been
    terminated. *)
Fixpoint groupByTime {T E : Type} (min max : Z)
    (events : list (Notification T E * Z)) (w : Window T)
  : list (Notification (list T) E) * option (Window T) :=
  match events with
  | [] => ([], Some w)
  | (Next value, now) :: rest =>
      let (w1, out1) := next min max value now w in
      let (out2, w2) := groupByTime min max rest w1 in
      (out1 ++ out2, w2)
  | (Error err, _) :: _ => (error err w, None)
  | (Complete, _) :: _ => (complete w, None)
  end.

End GroupByTime.

(** The values a source emits at given clock readings. *)
Definition emitted_at {T E : Type} (values : list (T * Z)) : list (Notification T E * Z) :=
  map (fun vt => (Next (fst vt), snd vt)) values.

(** The groups among the notifications handed to a subscriber. *)
Definition groups {T E : Type} (out : list (Notification (list T) E)) : list (list T) :=
  flat_map (fun n => match n with Next g => [g] | _ => [] end) out.

(** * timeout.ts, tickWithFallback

    One subscription to the observable of lines 70-131.  Time passes in
    units ([Elapse]); a timer armed with [setTimeout(f, timeout)] fires when
    [timeout] units have elapsed (at the first unit when [timeout] is 0).
    The fallback is given by what it emits synchronously when subscribed;
    what it emits later arrives as [FromFallback]. *)
Module Timeout.

Inductive Event (T E : Type) : Type :=
| FromSource (n : Notification T E)
| Elapse
| FromFallback (n : Notification T E)
| Unsubscribe.

Arguments FromSource {T E} n.
Arguments Elapse {T E}.
Arguments FromFallback {T E} n.
Arguments Unsubscribe {T E}.

Record Subscription (T E : Type) : Type := {
  timeoutHandle : option nat;          (* time left on the armed timer, if any *)
  isCompleted : bool;
  sourceSubscription : bool;           (* the subscription to the source is open *)
  fallbackSubscription : bool;         (* the subscription to the fallback is open *)
  fallbackSubscribes : nat;            (* calls of fallback.subscribe so far *)
  closed : bool;                       (* the subscriber is closed *)
  received : list (Notification T E)   (* what the subscriber was handed *)
}.

Arguments timeoutHandle {T E} s.
Arguments isCompleted {T E} s.
Arguments sourceSubscription {T E} s.
Arguments fallbackSubscription {T E} s.
Arguments fallbackSubscribes {T E} s.
Arguments closed {T E} s.
Arguments received {T E} s.

Section Tick.

Context {T E : Type}.
Variable timeout : nat.
Variable fallback : list (Notification T E).

Local Abbreviation Sub := (Subscription T E).

(** The function returned to the Observable constructor (lines 124-130),
    run when the subscriber is unsubscribed, completes or fails. *)
Definition teardown (s : Sub) : Sub :=
  {| timeoutHandle := None; isCompleted := true; sourceSubscription := false;
     fallbackSubscription := fallbackSubscription s;
     fallbackSubscribes := fallbackSubscribes s;
     closed := closed s; received := received s |}.

Definition subscriber_next (v : T) (s : Sub) : Sub :=
  if closed s then s
  else {| timeoutHandle := timeoutHandle s; isCompleted := isCompleted s;
          sourceSubscription := sourceSubscription s;
          fallbackSubscription := fallbackSubscription s;
          fallbackSubscribes := fallbackSubscribes s;
          closed := false; received := received s ++ [Next v] |}.

(** [subscriber.error] and [subscriber.complete]: the notification is
    handed over, the subscriber closes and the teardown runs. *)
Definition subscriber_end (n : Notification T E) (s : Sub) : Sub :=
  if closed s then s
  else teardown
         {| timeoutHandle := timeoutHandle s; isCompleted := isCompleted s;
            sourceSubscription := sourceSubscription s;
            fallbackSubscription := fallbackSubscription s;
            fallbackSubscribes := fallbackSubscribes s;
            closed := true; received := received s ++ [n] |}.

(** [resetTimeout] (lines 74-92): the armed timer, if any, is cleared and
    a new one is armed. *)
Definition resetTimeout (s : Sub) : Sub :=
  {| timeoutHandle := Some timeout; isCompleted := isCompleted s;
     sourceSubscription := sourceSubscription s;
     fallbackSubscription := fallbackSubscription s;
     fallbackSubscribes := fallbackSubscribes s;
     closed := closed s; received := received s |}.

(** The observer given to the fallback (lines 85-89). *)
Definition fallback_notify (n : Notification T E) (s : Sub) : Sub :=
  if fallbackSubscription s then
    match n with
    | Next v => subscriber_next v s
    | _ =>
        subscriber_end n
          {| timeoutHandle := timeoutHandle s; isCompleted := isCompleted s;
             sourceSubscription := sourceSubscription s;
             fallbackSubscription := false;
             fallbackSubscribes := fallbackSubscribes s;
             closed := closed s; received := received s |}
    end
  else s.

Fixpoint fallback_deliver (ns : list (Notification T E)) (s : Sub) : Sub :=
  match ns with
  | [] => s
  | n :: rest => fallback_deliver rest (fallback_notify n s)
  end.

(** The callback of the timer (lines 79-91). *)
Definition fire (s : Sub) : Sub :=
  if isCompleted s then
    {| timeoutHandle := None; isCompleted := isCompleted s;
       sourceSubscription := sourceSubscription s;
       fallbackSubscription := fallbackSubscription s;
       fallbackSubscribes := fallbackSubscribes s;
       closed := closed s; received := received s |}
  else
    fallback_deliver fallback
      {| timeoutHandle := None; isCompleted := true; sourceSubscription := false;
         fallbackSubscription := true;
         fallbackSubscribes := S (fallbackSubscribes s);
         closed := closed s; received := received s |}.

(** The observer given to the source (lines 97-122). *)
Definition source_notify (n : Notification T E) (s : Sub) : Sub :=
  if sourceSubscription s then
    match n with
    | Next v =>
        if isCompleted s then s else resetTimeout (subscriber_next v s)
    | _ =>
        let s' :=
          {| timeoutHandle := timeoutHandle s; isCompleted := isCompleted s;
             sourceSubscription := false;
             fallbackSubscription := fallbackSubscription s;
             fallbackSubscribes := fallbackSubscribes s;
             closed := closed s; received := received s |} in
        if isCompleted s then s'
        else
          subscriber_end n
            {| timeoutHandle := None; isCompleted := true;
               sourceSubscription := false;
               fallbackSubscription := fallbackSubscription s;
               fallbackSubscribes := fallbackSubscribes s;
               closed := closed s; received := received s |}
    end
  else s.

Definition elapse (s : Sub) : Sub :=
  match timeoutHandle s with
  | None => s
  | Some remaining =>
      if remaining <=? 1 then fire s
      else {| timeoutHandle := Some (remaining - 1); isCompleted := isCompleted s;
              sourceSubscription := sourceSubscription s;
              fallbackSubscription := fallbackSubscription s;
              fallbackSubscribes := fallbackSubscribes s;
              closed := closed s; received := received s |}
  end.

(** The subscriber is unsubscribed by its owner. *)
Definition unsubscribe (s : Sub) : Sub :=
  if closed s then s
  else teardown
         {| timeoutHandle := timeoutHandle s; isCompleted := isCompleted s;
            sourceSubscription := sourceSubscription s;
            fallbackSubscription := fallbackSubscription s;
            fallbackSubscribes := fallbackSubscribes s;
            closed := true; received := received s |}.

Definition step (s : Sub) (ev : Event T E) : Sub :=
  match ev with
  | FromSource n => source_notify n s
  | Elapse => elapse s
  | FromFallback n => fallback_notify n s
  | Unsubscribe => unsubscribe s
  end.

(** Subscription: the first timer is armed and the source subscribed
    (lines 95-97). *)
Definition subscribed : Sub :=
  {| timeoutHandle := Some timeout; isCompleted := false; sourceSubscription := true;
     fallbackSubscription := false; fallbackSubscribes := 0;
     closed := false; received := [] |}.

Definition tickWithFallback (events : list (Event T E)) : Sub :=
  fold_left step events subscribed.

(** The subscription while the source is listened to, [gap] units of time
    after its last value (or after the subscription). *)
Definition listening (gap : nat) (rcv : list (Notification T E)) : Sub :=
  {| timeoutHandle := Some (timeout - gap); isCompleted := false;
     sourceSubscription := true; fallbackSubscription := false;
     fallbackSubscribes := 0; closed := false; received := rcv |}.

(** The subscription at the moment the timer callback subscribes to the
    fallback. *)
Definition switching (rcv : list (Notification T E)) : Sub :=
  {| timeoutHandle := None; isCompleted := true; sourceSubscription := false;
     fallbackSubscription := true; fallbackSubscribes := 1;
     closed := false; received := rcv |}.

(** The subscription once the source has terminated it before any
    timeout. *)
Definition finished (rcv : list (Notification T E)) : Sub :=
  {| timeoutHandle := None; isCompleted := true; sourceSubscription := false;
     fallbackSubscription := false; fallbackSubscribes := 0;
     closed := true; received := rcv |}.

End Tick.

(** The source emits [v]. *)
Definition value {T E : Type} (v : T) : Event T E := FromSource (Next v).

(** The values among the events of the source. *)
Definition source_values {T E : Type} (events : list (Event T E)) : list T :=
  flat_map (fun ev => match ev with FromSource (Next v) => [v] | _ => [] end) events.

(** Only values of the source and the passing of time, with fewer than
    [timeout] units of time in a row, [gap] units having passed already. *)
Fixpoint lively {T E : Type} (timeout gap : nat) (events : list (Event T E)) : bool :=
  match events with
  | [] => true
  | FromSource (Next _) :: rest => lively timeout 0 rest
  | Elapse :: rest => (S gap <? timeout) && lively timeout (S gap) rest
  | _ => false
  end.

End Timeout.

(** A burst of notifications up to and including its first terminal one. *)
Fixpoint through_terminal {T E : Type} (ns : list (Notification T E))
  : list (Notification T E) :=
  match ns with
  | [] => []
  | Next v :: rest => Next v :: through_terminal rest
  | n :: _ => [n]
  end.

(** * timeout.ts, timeoutWithFallback

    One subscription to [race(source, timer(timeout).pipe(switchMap(() =>
    fallback)))] (line 32).  RxJS's race subscribes to the racers in order;
    the first racer to emit a value has the others unsubscribed, and
    completions and errors of any racer still subscribed go to the
    subscriber.  The second racer is the timer followed by switchMap: when
    the timer fires, the fallback is subscribed, and when the fallback has
    completed after the timer (which completes as it fires) the racer
    completes.  Events and the fallback are as for [tickWithFallback]. *)
Module Race.

Record Subscription (T E : Type) : Type := {
  subscriptions : bool;                (* race: no racer has emitted a value yet *)
  sourceSubscription : bool;           (* the subscription to the source is open *)
  timer : option nat;                  (* time left on timer(timeout), if it is running *)
  isComplete : bool;                   (* switchMap has seen the timer complete *)
  innerSubscriber : bool;              (* switchMap holds an open subscriber on the fallback *)
  fallbackSubscribes : nat;            (* subscriptions made to the fallback so far *)
  closed : bool;                       (* the subscriber is closed *)
  received : list (Notification T E)   (* what the subscriber was handed *)
}.

Arguments subscriptions {T E} s.
Arguments sourceSubscription {T E} s.
Arguments timer {T E} s.
Arguments isComplete {T E} s.
Arguments innerSubscriber {T E} s.
Arguments fallbackSubscribes {T E} s.
Arguments closed {T E} s.
Arguments received {T E} s.

Section Race.

Context {T E : Type}.
Variable timeout : nat.
Variable fallback : list (Notification T E).

Local Abbreviation Sub := (Subscription T E).

(** Unsubscription of the whole chain: both racers go. *)
Definition teardown (s : Sub) : Sub :=
  {| subscriptions := subscriptions s; sourceSubscription := false; timer := None;
     isComplete := isComplete s; innerSubscriber := false;
     fallbackSubscribes := fallbackSubscribes s;
     closed := closed s; received := received s |}.

Definition subscriber_next (v : T) (s : Sub) : Sub :=
  if closed s then s
  else {| subscriptions := subscriptions s; sourceSubscription := sourceSubscription s;
          timer := timer s; isComplete := isComplete s;
          innerSubscriber := innerSubscriber s;
          fallbackSubscribes := fallbackSubscribes s;
          closed := false; received := received s ++ [Next v] |}.

Definition subscriber_end (n : Notification T E) (s : Sub) : Sub :=
  if closed s then s
  else teardown
         {| subscriptions := subscriptions s; sourceSubscription := sourceSubscription s;
            timer := timer s; isComplete := isComplete s;
            innerSubscriber := innerSubscriber s;
            fallbackSubscribes := fallbackSubscribes s;
            closed := true; received := received s ++ [n] |}.

(** The value handler race gives to each racer: on the first value the
    other racer is unsubscribed. *)
Definition race_next (from_source : bool) (v : T) (s : Sub) : Sub :=
  subscriber_next v
    (if subscriptions s then
       if from_source then
         {| subscriptions := false; sourceSubscription := sourceSubscription s;
            timer := None; isComplete := isComplete s; innerSubscriber := false;
            fallbackSubscribes := fallbackSubscribes s;
            closed := closed s; received := received s |}
       else
         {| subscriptions := false; sourceSubscription := false;
            timer := timer s; isComplete := isComplete s;
            innerSubscriber := innerSubscriber s;
            fallbackSubscribes := fallbackSubscribes s;
            closed := closed s; received := received s |}
     else s).

Definition source_notify (n : Notification T E) (s : Sub) : Sub :=
  if sourceSubscription s then
    match n with
    | Next v => race_next true v s
    | _ =>
        subscriber_end n
          {| subscriptions := subscriptions s; sourceSubscription := false;
             timer := timer s; isComplete := isComplete s;
             innerSubscriber := innerSubscriber s;
             fallbackSubscribes := fallbackSubscribes s;
             closed := closed s; received := received s |}
    end
  else s.

(** switchMap's [checkComplete]. *)
Definition checkComplete (s : Sub) : Sub :=
  if isComplete s && negb (innerSubscriber s) then subscriber_end Complete s else s.

(** The handlers of switchMap's inner subscriber, on the fallback. *)
Definition fallback_notify (n : Notification T E) (s : Sub) : Sub :=
  if innerSubscriber s then
    match n with
    | Next v => race_next false v s
    | Complete =>
        checkComplete
          {| subscriptions := subscriptions s; sourceSubscription := sourceSubscription s;
             timer := timer s; isComplete := isComplete s; innerSubscriber := false;
             fallbackSubscribes := fallbackSubscribes s;
             closed := closed s; received := received s |}
    | Error e => subscriber_end (Error e) s
    end
  else s.

Fixpoint fallback_deliver (ns : list (Notification T E)) (s : Sub) : Sub :=
  match ns with
  | [] => s
  | n :: rest => fallback_deliver rest (fallback_notify n s)
  end.

(** The timer fires: it emits, switchMap subscribes to the fallback, then
    the timer completes. *)
Definition fire (s : Sub) : Sub :=
  let s1 :=
    fallback_deliver fallback
      {| subscriptions := subscriptions s; sourceSubscription := sourceSubscription s;
         timer := None; isComplete := isComplete s; innerSubscriber := true;
         fallbackSubscribes := S (fallbackSubscribes s);
         closed := closed s; received := received s |} in
  if closed s1 then s1
  else
    checkComplete
      {| subscriptions := subscriptions s1; sourceSubscription := sourceSubscription s1;
         timer := timer s1; isComplete := true; innerSubscriber := innerSubscriber s1;
         fallbackSubscribes := fallbackSubscribes s1;
         closed := closed s1; received := received s1 |}.

Definition elapse (s : Sub) : Sub :=
  match timer s with
  | None => s
  | Some remaining =>
      if remaining <=? 1 then fire s
      else {| subscriptions := subscriptions s; sourceSubscription := sourceSubscription s;
              timer := Some (remaining - 1); isComplete := isComplete s;
              innerSubscriber := innerSubscriber s;
              fallbackSubscribes := fallbackSubscribes s;
              closed := closed s; received := received s |}
  end.

Definition unsubscribe (s : Sub) : Sub :=
  if closed s then s
  else teardown
         {| subscriptions := subscriptions s; sourceSubscription := sourceSubscription s;
            timer := timer s; isComplete := isComplete s;
            innerSubscriber := innerSubscriber s;
            fallbackSubscribes := fallbackSubscribes s;
            closed := true; received := received s |}.

Definition step (s : Sub) (ev : Timeout.Event T E) : Sub :=
  match ev with
  | Timeout.FromSource n => source_notify n s
  | Timeout.Elapse => elapse s
  | Timeout.FromFallback n => fallback_notify n s
  | Timeout.Unsubscribe => unsubscribe s
  end.

(** Both racers subscribed, the timer running. *)
Definition subscribed : Sub :=
  {| subscriptions := true; sourceSubscription := true; timer := Some timeout;
     isComplete := false; innerSubscriber := false; fallbackSubscribes := 0;
     closed := false; received := [] |}.

Definition timeoutWithFallback (events : list (Timeout.Event T E)) : Sub :=
  fold_left step events subscribed.

(** The subscription while waiting for the first value, [gap] units of
    time after the subscription. *)
Definition waiting (gap : nat) : Sub :=
  {| subscriptions := true; sourceSubscription := true; timer := Some (timeout - gap);
     isComplete := false; innerSubscriber := false; fallbackSubscribes := 0;
     closed := false; received := [] |}.

(** The subscription once the source has won the race. *)
Definition source_won (open : bool) (rcv : list (Notification T E)) : Sub :=
  {| subscriptions := false; sourceSubscription := open; timer := None;
     isComplete := false; innerSubscriber := false; fallbackSubscribes := 0;
     closed := negb open; received := rcv |}.

End Race.

(** The notifications of the source among the events. *)
Definition source_notifications {T E : Type} (events : list (Timeout.Event T E))
  : list (Notification T E) :=
  flat_map (fun ev => match ev with Timeout.FromSource n => [n] | _ => [] end) events.

(** Only notifications of the source and the passing of time. *)
Definition source_and_time {T E : Type} (events : list (Timeout.Event T E)) : bool :=
  forallb (fun ev => match ev with
                     | Timeout.FromSource _ | Timeout.Elapse => true
                     | _ => false
                     end) events.

End Race.

(** Every element of a list is related to the next one. *)
Fixpoint chain {T : Type} (R : T -> T -> bool) (l : list T) : Prop :=
  match l with
  | a :: rest =>
      match rest with
      | b :: _ => R a b = true /\ chain R rest
      | [] => True
      end
  | [] => True
  end.

(** A list with every run of adjacent equal elements collapsed to one. *)
Fixpoint collapse {K : Type} (eqb : K -> K -> bool) (l : list K) : list K :=
  match l with
  | a :: rest =>
      match rest with
      | b :: _ => if eqb a b then collapse eqb rest else a :: collapse eqb rest
      | [] => [a]
      end
  | [] => []
  end.

(** The sum of a history, for the predicates of the tests. *)
Definition sum (all : list nat) : nat := fold_left Nat.add all 0.

(** * Properties *)

(** ** The reducer *)

Lemma reducer_transition (s : State) (a : Action) : reducer s a = transition s a.
Proof. destruct s, a; reflexivity. Qed.

Lemma state_eqb_eq (s t : State) : state_eqb s t = true <-> s = t.
Proof. destruct s, t; simpl; split; congruence. Qed.

Lemma fold_reducer_transition (cmds : list Action) (s : State) :
  fold_left reducer cmds s = fold_left transition cmds s.
Proof.
  revert s; induction cmds as [|a cmds IH]; intros s; simpl.
  - reflexivity.
  - rewrite reducer_transition. apply IH.
Qed.

Lemma scan_last_default {A B : Type} (f : B -> A -> B) (xs : list A) (seed d : B) :
  last (scan f seed xs) d = match xs with [] => d | _ :: _ => fold_left f xs seed end.
Proof.
  revert seed; induction xs as [|x xs IH]; intros seed.
  - reflexivity.
  - specialize (IH (f seed x)). destruct xs as [|y ys].
    + reflexivity.
    + cbn [scan last] in *. exact IH.
Qed.

Lemma scan_last {A B : Type} (f : B -> A -> B) (xs : list A) (seed : B) :
  last (scan f seed xs) seed = fold_left f xs seed.
Proof. rewrite scan_last_default. destruct xs; reflexivity. Qed.

(** ** The pipeline *)

Section Invariants.

Context {X T E P : Type}.
Variable source : Observable X T E P.

Local Abbreviation Ctl := (Controller T E P).

Ltac open_ctl c :=
  destruct c as [p pl cl st inner ic rcv subs unsubs]; cbn in *.

Ltac unfold_handlers :=
  unfold inner_notify, sink_next, sink_error, sink_complete, checkComplete,
    teardown, unsubscribe_inner, release, hand, set_closed, set_state,
    set_innerSubscriber, set_producer in *; cbn in *.

Lemma not_in_snoc {A : Type} (l : list A) (x y : A) :
  ~ In x l -> x <> y -> ~ In x (l ++ [y]).
Proof.
  intros Hl Hxy Hin. apply in_app_or in Hin. destruct Hin as [H|[H|[]]]; auto.
Qed.

(** *** Handlers of the inner subscriber *)

Lemma inner_notify_inv (n : Notification T E) (c : Ctl) :
  inv c -> innerSubscriber c = true -> inv (inner_notify source n c).
Proof.
  intros [Hp Hc Hi Hn Hv Hnc] Hin. open_ctl c. subst.
  destruct (Hi eq_refl) as [-> ->]. specialize (Hv eq_refl).
  destruct n as [v|e|]; unfold_handlers; constructor; cbn; try easy; try lia.
  - intros _. apply Forall_app. split; [assumption|]. constructor; [exact I|constructor].
  - apply not_in_snoc; [assumption|discriminate].
  - apply not_in_snoc; [assumption|discriminate].
Qed.

Lemma inner_notify_frame (n : Notification T E) (c : Ctl) :
  isComplete c = false ->
  let c' := inner_notify source n c in
  state c' = state c /\ subscribes c' = subscribes c /\
  pipelines c' = pipelines c /\ isComplete c' = false.
Proof.
  intros Hc. open_ctl c. subst.
  destruct n as [v|e|]; unfold_handlers; destruct cl, inner; cbn; auto.
Qed.

Lemma deliver_inv (ns : list (Notification T E)) (c : Ctl) :
  inv c -> inv (deliver source ns c).
Proof.
  revert c; induction ns as [|n ns IH]; intros c Hinv; cbn [deliver].
  - assumption.
  - destruct (innerSubscriber c) eqn:Hin; [|assumption].
    apply IH. apply inner_notify_inv; assumption.
Qed.

Lemma deliver_frame (ns : list (Notification T E)) (c : Ctl) :
  isComplete c = false ->
  let c' := deliver source ns c in
  state c' = state c /\ subscribes c' = subscribes c /\
  pipelines c' = pipelines c /\ isComplete c' = false.
Proof.
  revert c; induction ns as [|n ns IH]; intros c Hc; cbn [deliver].
  - auto.
  - destruct (innerSubscriber c) eqn:Hin; [|auto].
    destruct (inner_notify_frame n c Hc) as (Hs & Hsub & Hpl & Hc').
    destruct (IH _ Hc') as (Hs2 & Hsub2 & Hpl2 & Hc2). cbn zeta in *.
    repeat split; congruence.
Qed.

(** The sink is handed exactly the forwarded part of a burst. *)
Lemma deliver_received (ns : list (Notification T E)) (c : Ctl) :
  inv c -> innerSubscriber c = true ->
  received (deliver source ns c) = received c ++ forwarded ns.
Proof.
  revert c; induction ns as [|n ns IH]; intros c Hinv Hin; cbn [deliver forwarded].
  - now rewrite app_nil_r.
  - rewrite Hin. pose proof (inner_notify_inv n Hinv Hin) as Hinv'.
    destruct Hinv as [Hp Hc Hi Hn Hv Hnc]. destruct (Hi Hin) as [Hst Hcl].
    destruct n as [v|e|].
    + rewrite IH; [|assumption|].
      * open_ctl c. subst. unfold_handlers. now rewrite <- app_assoc.
      * open_ctl c. subst. unfold_handlers. reflexivity.
    + open_ctl c. subst. unfold_handlers. destruct ns; reflexivity.
    + open_ctl c. subst. unfold_handlers. rewrite app_nil_r. destruct ns; reflexivity.
Qed.

Lemma deliver_dropped (ns : list (Notification T E)) (c : Ctl) :
  innerSubscriber c = false -> deliver source ns c = c.
Proof. intros H. destruct ns; cbn [deliver]; [reflexivity|now rewrite H]. Qed.

(** A burst of values leaves the subscription open. *)
Lemma deliver_values (ns : list (Notification T E)) (c : Ctl) :
  Forall is_value ns -> closed c = false ->
  let c' := deliver source ns c in
  innerSubscriber c' = innerSubscriber c /\ closed c' = false /\
  unsubscribes c' = unsubscribes c.
Proof.
  intros Hns; revert c; induction Hns as [|n ns Hn Hns IH]; intros c Hcl; cbn [deliver].
  - auto.
  - destruct (innerSubscriber c) eqn:Hin; [|auto].
    destruct n as [v|e|]; try contradiction.
    cbn zeta in IH.
    destruct (IH (inner_notify source (Next v) c)) as (H1 & H2 & H3).
    + open_ctl c. subst. unfold_handlers. reflexivity.
    + rewrite H1, H2, H3. open_ctl c. subst. unfold_handlers. auto.
Qed.

(** *** scan and switchMap *)

Lemma scan_next_inv (a : Action) (c : Ctl) :
  inv c -> closed c = false -> inv (scan_next source a c).
Proof.
  intros [Hp Hc Hi Hn Hv Hnc] Hcl. open_ctl c. subst.
  unfold scan_next, switchMap_next, project, subscribe_source. cbn.
  destruct (state_eqb (reducer st a) Running) eqn:Hrun.
  - apply state_eqb_eq in Hrun.
    destruct inner; unfold_handlers;
      match goal with |- context [subscribe source ?q] =>
        destruct (subscribe source q) as [ns p'] end;
      apply deliver_inv; constructor; cbn; auto; lia.
  - destruct inner; unfold_handlers; constructor; cbn; auto; try lia; discriminate.
Qed.

Lemma scan_next_frame (a : Action) (c : Ctl) :
  isComplete c = false ->
  let c' := scan_next source a c in
  state c' = reducer (state c) a /\
  subscribes c' =
    subscribes c + (if state_eqb (reducer (state c) a) Running then 1 else 0) /\
  pipelines c' = pipelines c /\ isComplete c' = false.
Proof.
  intros Hc. open_ctl c. subst.
  unfold scan_next, switchMap_next, project, subscribe_source. cbn.
  destruct (state_eqb (reducer st a) Running) eqn:Hrun.
  - destruct inner; unfold_handlers;
      match goal with |- context [subscribe source ?q] =>
        destruct (subscribe source q) as [ns p'] end;
      match goal with |- context [deliver source ?l ?d] =>
        destruct (deliver_frame l d eq_refl) as (H1 & H2 & H3 & H4) end;
      cbn in *; rewrite H1, H2, H3, H4; repeat split; lia.
  - destruct inner; unfold_handlers; repeat split; lia.
Qed.

(** What a command hands to the sink: the synchronous emissions of the
    fresh subscription when the new state is [Running], nothing otherwise. *)
Lemma scan_next_received (a : Action) (c : Ctl) :
  inv c -> closed c = false ->
  received (scan_next source a c) =
  received c ++
  (if state_eqb (reducer (state c) a) Running
   then forwarded (fst (subscribe source (producer (unsubscribe_inner source c))))
   else []).
Proof.
  intros [Hp Hc Hi Hn Hv Hnc] Hcl. open_ctl c. subst.
  unfold scan_next, switchMap_next, project, subscribe_source. cbn.
  destruct (state_eqb (reducer st a) Running) eqn:Hrun.
  - apply state_eqb_eq in Hrun.
    destruct inner; unfold_handlers;
      match goal with |- context [subscribe source ?q] =>
        destruct (subscribe source q) as [ns p'] end;
      rewrite deliver_received; cbn; auto; constructor; cbn; auto; lia.
  - destruct inner; unfold_handlers; now rewrite app_nil_r.
Qed.

(** *** Steps and runs *)

Lemma createPausable_inv (p0 : P) : inv (createPausable source p0).
Proof.
  apply scan_next_inv; [|reflexivity].
  constructor; cbn; auto; discriminate.
Qed.

Lemma environment_inv (x : X) (c : Ctl) : inv c -> inv (environment source x c).
Proof.
  intros Hinv. unfold environment.
  destruct (react source x (producer c)) as [ns p']. apply deliver_inv.
  destruct Hinv. open_ctl c. constructor; cbn; auto.
Qed.

Lemma control_next_inv (a : Action) (c : Ctl) : inv c -> inv (control_next source a c).
Proof.
  intros Hinv. unfold control_next. destruct (closed c) eqn:Hcl; [assumption|].
  now apply scan_next_inv.
Qed.

Lemma invoke_control_next (m : Method) (c : Ctl) :
  invoke source m c = control_next source (action_of m) c.
Proof. destruct m; reflexivity. Qed.

Lemma step_inv (ev : Event X) (c : Ctl) : inv c -> inv (step source c ev).
Proof.
  destruct ev as [m|x]; cbn [step].
  - rewrite invoke_control_next. apply control_next_inv.
  - apply environment_inv.
Qed.

Lemma run_cons (ev : Event X) (evs : list (Event X)) (c : Ctl) :
  run source (ev :: evs) c = run source evs (step source c ev).
Proof. reflexivity. Qed.

Lemma run_inv (evs : list (Event X)) (c : Ctl) : inv c -> inv (run source evs c).
Proof.
  revert c; induction evs as [|ev evs IH]; intros c Hinv.
  - assumption.
  - rewrite run_cons. apply IH, step_inv, Hinv.
Qed.

Lemma reachable_inv (evs : list (Event X)) (p0 : P) :
  inv (run source evs (createPausable source p0)).
Proof. apply run_inv, createPausable_inv. Qed.

Lemma run_snoc (evs : list (Event X)) (ev : Event X) (c : Ctl) :
  run source (evs ++ [ev]) c = step source (run source evs c) ev.
Proof. unfold run. now rewrite fold_left_app. Qed.

Lemma run_app (evs evs' : list (Event X)) (c : Ctl) :
  run source (evs ++ evs') c = run source evs' (run source evs c).
Proof. unfold run. now rewrite fold_left_app. Qed.

(** A closed pipeline hears nothing any more. *)
Lemma step_closed (ev : Event X) (c : Ctl) :
  inv c -> closed c = true ->
  closed (step source c ev) = true /\ received (step source c ev) = received c.
Proof.
  intros Hinv Hcl.
  assert (Hin : innerSubscriber c = false).
  { destruct (innerSubscriber c) eqn:Hin; [|reflexivity].
    destruct (inv_inner Hinv Hin) as [_ H]. congruence. }
  destruct ev as [m|x]; cbn [step].
  - rewrite invoke_control_next. unfold control_next. rewrite Hcl. auto.
  - unfold environment. destruct (react source x (producer c)) as [ns p'].
    rewrite deliver_dropped; [|exact Hin]. auto.
Qed.

Lemma run_closed (evs : list (Event X)) (c : Ctl) :
  inv c -> closed c = true ->
  closed (run source evs c) = true /\ received (run source evs c) = received c.
Proof.
  revert c; induction evs as [|ev evs IH]; intros c Hinv Hcl.
  - auto.
  - rewrite run_cons. destruct (step_closed ev Hinv Hcl) as [H1 H2].
    destruct (IH _ (step_inv ev Hinv) H1) as [H3 H4]. split; congruence.
Qed.

Lemma step_open_before (ev : Event X) (c : Ctl) :
  inv c -> closed (step source c ev) = false -> closed c = false.
Proof.
  intros Hinv H. destruct (closed c) eqn:Hcl; [|reflexivity].
  destruct (step_closed ev Hinv Hcl) as [H1 _]. congruence.
Qed.

Lemma actions_snoc (evs : list (Event X)) (ev : Event X) :
  actions (evs ++ [ev]) =
  actions evs ++ match ev with Call m => [action_of m] | Env _ => [] end.
Proof. unfold actions. rewrite flat_map_app. cbn. now rewrite app_nil_r. Qed.

Lemma entries_snoc (cmds : list Action) (a : Action) (s : State) :
  entries s (cmds ++ [a]) =
  entries s cmds +
  (if state_eqb (transition (fold_left transition cmds s) a) Running then 1 else 0).
Proof.
  revert s; induction cmds as [|b cmds IH]; intros s; cbn [entries app fold_left].
  - lia.
  - rewrite IH. lia.
Qed.

Lemma environment_frame (x : X) (c : Ctl) :
  isComplete c = false ->
  let c' := environment source x c in
  state c' = state c /\ subscribes c' = subscribes c /\ pipelines c' = pipelines c.
Proof.
  intros Hc. unfold environment.
  destruct (react source x (producer c)) as [ns p'].
  destruct (deliver_frame ns (set_producer p' c) Hc) as (H1 & H2 & H3 & _).
  cbn zeta in *. rewrite H1, H2, H3. auto.
Qed.

(** While the pipeline is open, the accumulator of [scan] is the fold of
    the table over the commands sent, and [source$] was subscribed once for
    every command that led to [Running]. *)
Lemma run_open (p0 : P) (evs : list (Event X)) :
  let c := run source evs (createPausable source p0) in
  closed c = false ->
  state c = fold_left transition (actions evs) Stopped /\
  subscribes c = entries Stopped (actions evs).
Proof.
  induction evs as [|ev evs IH] using rev_ind; cbn zeta in *.
  - intros _.
    destruct (scan_next_frame Stop
      {| producer := p0; pipelines := 1; closed := false; state := Stopped;
         innerSubscriber := false; isComplete := false;
         received := @nil (Notification T E);
         subscribes := 0; unsubscribes := 0 |} eq_refl) as (H1 & H2 & _).
    split; [exact H1 | exact H2].
  - rewrite run_snoc, actions_snoc. intros Hcl.
    pose proof (reachable_inv evs p0) as Hinv.
    pose proof (step_open_before ev Hinv Hcl) as Hcl0.
    destruct (IH Hcl0) as [Hst Hsub].
    destruct ev as [m|x]; cbn [step].
    + rewrite invoke_control_next. unfold control_next. rewrite Hcl0.
      destruct (scan_next_frame (action_of m) _ (inv_isComplete Hinv))
        as (H1 & H2 & _).
      rewrite H1, H2, fold_left_app, entries_snoc, Hst, Hsub.
      cbn [fold_left]. rewrite reducer_transition. auto.
    + destruct (environment_frame x _ (inv_isComplete Hinv)) as (H1 & H2 & _).
      rewrite H1, H2, app_nil_r. auto.
Qed.



(** *** Producers that never terminate *)

Lemma scan_next_steady (a : Action) (c : Ctl) :
  only_values source -> closed c = false -> isComplete c = false ->
  steady (scan_next source a c).
Proof.
  intros [Hsub _] Hcl Hic. open_ctl c. subst.
  unfold steady, scan_next, switchMap_next, project, subscribe_source. cbn.
  destruct (state_eqb (reducer st a) Running) eqn:Hrun.
  - destruct inner; unfold_handlers;
      match goal with |- context [subscribe source ?q] =>
        pose proof (Hsub q) as Hq; destruct (subscribe source q) as [ns p'] end;
      match goal with |- context [deliver source ?l ?d] =>
        destruct (@deliver_values l d Hq eq_refl) as (H1 & H2 & _);
        destruct (@deliver_frame l d eq_refl) as (H3 & _)
      end; cbn in *; rewrite H1, H2, H3, Hrun; auto.
  - destruct inner; unfold_handlers; rewrite ?Hrun; auto.
Qed.

Lemma environment_steady (x : X) (c : Ctl) :
  only_values source -> isComplete c = false -> steady c ->
  steady (environment source x c).
Proof.
  intros [_ Hre] Hic [Hcl Hin]. unfold environment.
  pose proof (Hre x (producer c)) as Hq.
  destruct (react source x (producer c)) as [ns p']. cbn [fst] in Hq.
  destruct (@deliver_values ns (set_producer p' c) Hq Hcl) as (H1 & H2 & _).
  destruct (@deliver_frame ns (set_producer p' c) Hic) as (H3 & _).
  cbn zeta in *. unfold steady. rewrite H1, H2, H3. auto.
Qed.

Lemma run_steady (p0 : P) (evs : list (Event X)) :
  only_values source -> steady (run source evs (createPausable source p0)).
Proof.
  intros Hov. induction evs as [|ev evs IH] using rev_ind.
  - apply scan_next_steady; auto.
  - rewrite run_snoc. pose proof (reachable_inv evs p0) as Hinv.
    destruct ev as [m|x]; cbn [step].
    + rewrite invoke_control_next. unfold control_next.
      destruct IH as [Hcl Hin]. rewrite Hcl.
      apply scan_next_steady; auto. apply (inv_isComplete Hinv).
    + apply environment_steady; auto. apply (inv_isComplete Hinv).
Qed.

(** *** Before the first start *)

Lemma scan_next_stays_stopped (a : Action) (c : Ctl) :
  a <> Start -> closed c = false -> isComplete c = false ->
  state c = Stopped -> innerSubscriber c = false ->
  scan_next source a c = c.
Proof.
  intros Ha Hcl Hic Hst Hin. open_ctl c. subst.
  destruct a; try congruence; reflexivity.
Qed.

Lemma before_start (p0 : P) (evs : list (Event X)) :
  forallb (fun ev => negb (is_start ev)) evs = true ->
  let c := run source evs (createPausable source p0) in
  closed c = false /\ state c = Stopped /\ innerSubscriber c = false /\
  received c = [] /\ subscribes c = 0 /\ unsubscribes c = 0 /\
  producer c = fold_left (fun p x => snd (react source x p)) (inputs evs) p0.
Proof.
  induction evs as [|ev evs IH] using rev_ind; cbn zeta in *.
  - intros _. cbn. repeat split; reflexivity.
  - rewrite forallb_app. intros H. apply andb_prop in H. destruct H as [H1 H2].
    destruct (IH H1) as (Hcl & Hst & Hin & Hrc & Hsub & Huns & Hp).
    pose proof (inv_isComplete (reachable_inv evs p0)) as Hic.
    rewrite run_snoc. unfold inputs in *. rewrite flat_map_app, fold_left_app.
    destruct ev as [m|x]; cbn [step flat_map app fold_left].
    + rewrite invoke_control_next. unfold control_next. rewrite Hcl.
      assert (Ha : action_of m <> Start).
      { cbn in H2. destruct (action_of m); cbn in H2; congruence. }
      rewrite scan_next_stays_stopped by auto.
      repeat split; auto.
    + unfold environment.
      destruct (react source x (producer _)) as [ns p'] eqn:Hre.
      rewrite deliver_dropped by exact Hin. cbn.
      repeat split; auto. rewrite <- Hp, Hre. reflexivity.
Qed.

Lemma error_closes (c : Ctl) (e : E) :
  inv c -> In (Error e) (received c) -> closed c = true.
Proof.
  intros Hinv Hin. destruct (closed c) eqn:Hcl; [reflexivity|].
  pose proof (inv_values Hinv Hcl) as Hv. rewrite Forall_forall in Hv.
  destruct (Hv _ Hin).
Qed.

Lemma scan_next_silent (a : Action) (c : Ctl) :
  closed c = false -> isComplete c = false ->
  state_eqb (reducer (state c) a) Running = false ->
  let c' := scan_next source a c in
  closed c' = false /\ innerSubscriber c' = false /\ received c' = received c.
Proof.
  intros Hcl Hic Hrun. open_ctl c. subst.
  unfold scan_next, switchMap_next, project. cbn. rewrite Hrun.
  destruct inner; unfold_handlers; auto.
Qed.



Lemma inner_not_running (c : Ctl) :
  inv c -> state c <> Running -> innerSubscriber c = false.
Proof.
  intros Hinv Hst. destruct (innerSubscriber c) eqn:Hin; [|reflexivity].
  destruct (inv_inner Hinv Hin) as [H _]. contradiction.
Qed.

Lemma environment_received (x : X) (c : Ctl) :
  inv c ->
  received (environment source x c) =
  received c ++
  (if innerSubscriber c then forwarded (fst (react source x (producer c))) else []).
Proof.
  intros Hinv. unfold environment.
  destruct (react source x (producer c)) as [ns p'] eqn:Hre. cbn [fst].
  destruct (innerSubscriber c) eqn:Hin.
  - rewrite deliver_received; [reflexivity| |exact Hin].
    destruct Hinv. open_ctl c. constructor; cbn; auto.
  - rewrite deliver_dropped by exact Hin. cbn. now rewrite app_nil_r.
Qed.

Lemma deliver_no_error (ns : list (Notification T E)) (c : Ctl) :
  (forall e, ~ In (Error e) ns) -> isComplete c = false ->
  closed (deliver source ns c) = closed c.
Proof.
  revert c; induction ns as [|n ns IH]; intros c Hns Hic; cbn [deliver].
  - reflexivity.
  - destruct (innerSubscriber c) eqn:Hin; [|reflexivity].
    assert (Hns' : forall e, ~ In (Error e) ns)
      by (intros e He; apply (Hns e); now right).
    destruct (@inner_notify_frame n c Hic) as (_ & _ & _ & Hic').
    rewrite IH by assumption.
    destruct n as [v|e|].
    + open_ctl c. subst. unfold_handlers. destruct cl; reflexivity.
    + exfalso. apply (Hns e). now left.
    + open_ctl c. subst. unfold_handlers. reflexivity.
Qed.

(** A command leaves the pipeline subscribed when the producer raises no
    error while being subscribed. *)
Lemma control_next_open (a : Action) (c : Ctl) :
  inv c -> closed c = false ->
  (forall p e, ~ In (Error e) (fst (subscribe source p))) ->
  closed (control_next source a c) = false.
Proof.
  intros Hinv Hcl Hne. unfold control_next. rewrite Hcl.
  destruct (state_eqb (reducer (state c) a) Running) eqn:Hrun.
  - pose proof (inv_isComplete Hinv) as Hic. open_ctl c. subst.
    unfold scan_next, switchMap_next, project, subscribe_source. cbn. rewrite Hrun.
    destruct inner; unfold_handlers;
      match goal with |- context [subscribe source ?q] =>
        pose proof (Hne q) as Hq; destruct (subscribe source q) as [ns p'] end;
      rewrite deliver_no_error; auto.
  - now destruct (@scan_next_silent a c Hcl (inv_isComplete Hinv) Hrun).
Qed.

(** ** The claims *)

(** C1.  The reducer is the transition table of section 4.1: [start]
    always yields [Running], [stop] always yields [Stopped], every pair of
    a state and a command has exactly one next state.  The stream of
    states that [scan], seeded with [Stopped] and fed ['stop'] first, emits
    for a command sequence ends in the left fold of the table from
    [Stopped]; and in a controller whose pipeline is still subscribed the
    accumulator of [scan] is that fold over the commands issued. *)
Theorem C1_lifecycle_is_fold_of_table :
  (forall s a, reducer s a = transition s a) /\
  (forall s, reducer s Start = Running /\ reducer s Stop = Stopped) /\
  (forall s a, exists s', reducer s a = s' /\ forall s'', reducer s a = s'' -> s'' = s') /\
  (forall cmds,
      last (scan reducer Stopped (startWith Stop cmds)) Stopped =
      fold_left transition cmds Stopped) /\
  (forall (p0 : P) (evs : list (Event X)),
      closed (run source evs (createPausable source p0)) = false ->
      state (run source evs (createPausable source p0)) =
      fold_left transition (actions evs) Stopped).
Proof.
  split; [exact reducer_transition|].
  split; [intros s; destruct s; split; reflexivity|].
  split; [intros s a; exists (reducer s a); split; [reflexivity|congruence]|].
  split.
  - intros cmds. rewrite scan_last. unfold startWith. cbn [fold_left].
    change (reducer Stopped Stop) with Stopped. apply fold_reducer_transition.
  - intros p0 evs Hcl. apply (run_open p0 evs Hcl).
Qed.


(** C3, amended.  While a subscription to the wrapped producer is held
    (which happens only in state [Running]) every value and every error
    the producer emits is handed to the sink, up to the first terminal
    notification of the producer; this holds for what the producer emits
    on an event of its environment and for what it emits while being
    subscribed by a command that leads to [Running].  A completion of the
    producer is never handed to the sink.  While the state is [Paused] or
    [Stopped] the sink is handed nothing, whatever the producer does, and
    a command that leads to [Paused] or [Stopped] hands it nothing. *)
Theorem C3_values_and_errors_are_forwarded (p0 : P) (evs : list (Event X)) :
  let c := run source evs (createPausable source p0) in
  ~ In Complete (received c) /\
  (innerSubscriber c = true -> state c = Running) /\
  (forall x, innerSubscriber c = true ->
     received (environment source x c) =
     received c ++ forwarded (fst (react source x (producer c)))) /\
  (forall a, closed c = false -> reducer (state c) a = Running ->
     received (command source a c) =
     received c ++
     forwarded (fst (subscribe source (producer (unsubscribe_inner source c))))) /\
  (state c <> Running -> forall x, received (environment source x c) = received c) /\
  (forall a, reducer (state c) a <> Running ->
     received (command source a c) = received c).
Proof.
  cbn zeta. pose proof (reachable_inv evs p0) as Hinv.
  split; [apply (inv_no_complete Hinv)|].
  split; [intros Hin; apply (inv_inner Hinv Hin)|].
  split.
  { intros x Hin. rewrite environment_received by exact Hinv. now rewrite Hin. }
  split.
  { intros a Hcl Hrun. unfold command, control_next. rewrite Hcl.
    rewrite scan_next_received by assumption. now rewrite Hrun. }
  split.
  { intros Hst x. rewrite environment_received by exact Hinv.
    rewrite (inner_not_running Hinv Hst). apply app_nil_r. }
  intros a Hrun. unfold command, control_next.
  destruct (closed _) eqn:Hcl; [reflexivity|].
  rewrite scan_next_received by assumption.
  destruct (state_eqb _ Running) eqn:Heq; [|apply app_nil_r].
  apply state_eqb_eq in Heq. contradiction.
Qed.


(** C6.  On a producer that raises [e] synchronously whenever it is
    subscribed, once [start] is called (whatever was called before that was
    not a start, and whatever happens afterwards) the sink has been handed
    exactly the one notification [Error e], and no value.  On every
    producer, once an error has been handed to the sink nothing that
    follows, command or producer activity, hands it anything more. *)
Theorem C6_producer_error_is_terminal
    (e : E) (p0 : P) (before after : list (Event X)) :
  (throws_on_subscribe source e ->
   forallb (fun ev => negb (is_start ev)) before = true ->
   received (run source (before ++ Call MStart :: after) (createPausable source p0))
   = [Error e]) /\
  (In (Error e) (received (run source before (createPausable source p0))) ->
   received (run source (before ++ after) (createPausable source p0)) =
   received (run source before (createPausable source p0))).
Proof.
  split.
  - intros Hthrow Hbefore.
    destruct (before_start p0 before Hbefore) as (Hcl & Hst & Hin & Hrc & _).
    pose proof (reachable_inv before p0) as Hinv.
    change (Call MStart :: after) with ([Call MStart] ++ after).
    rewrite app_assoc, run_app, run_snoc. cbn [step invoke]. unfold start.
    set (c := run source before (createPausable source p0)) in *.
    pose proof (control_next_inv Start Hinv) as Hinv'.
    assert (Hrcv : received (control_next source Start c) = [Error e]).
    { unfold control_next. rewrite Hcl.
      rewrite scan_next_received by assumption.
      destruct (Hthrow (producer (unsubscribe_inner source c))) as [rest Hrest].
      rewrite Hrest, Hst, Hrc. reflexivity. }
    assert (Hclosed : closed (control_next source Start c) = true).
    { apply (@error_closes _ e Hinv'). rewrite Hrcv. now left. }
    destruct (run_closed after Hinv' Hclosed) as [_ H].
    rewrite H. exact Hrcv.
  - intros Hin. pose proof (reachable_inv before p0) as Hinv.
    rewrite run_app.
    destruct (run_closed after Hinv (@error_closes _ e Hinv Hin)) as [_ H]. exact H.
Qed.

(** C8.  [pause] outside [Running] and [resume] outside [Paused] return the
    state unchanged, however many times they are repeated; and any sequence
    of pause and resume calls (by name or through [command]), interleaved
    with any producer activity, on a fresh controller leaves the state
    [Stopped], the sink with nothing received and the producer never
    subscribed. *)
Theorem C8_invalid_pause_and_resume_are_noops :
  (forall s, s <> Running -> reducer s Pause = s) /\
  (forall s, s <> Paused -> reducer s Resume = s) /\
  (forall n s, s <> Running -> Nat.iter n (fun t => reducer t Pause) s = s) /\
  (forall n s, s <> Paused -> Nat.iter n (fun t => reducer t Resume) s = s) /\
  (forall (p0 : P) (evs : list (Event X)),
      forallb is_pause_or_resume evs = true ->
      state (run source evs (createPausable source p0)) = Stopped /\
      received (run source evs (createPausable source p0)) = [] /\
      subscribes (run source evs (createPausable source p0)) = 0).
Proof.
  assert (Hp : forall s, s <> Running -> reducer s Pause = s)
    by (intros s Hs; destruct s; try reflexivity; congruence).
  assert (Hr : forall s, s <> Paused -> reducer s Resume = s)
    by (intros s Hs; destruct s; try reflexivity; congruence).
  split; [exact Hp|]. split; [exact Hr|].
  split; [|split].
  - intros n s Hs. induction n as [|n IH]; [reflexivity|].
    rewrite Nat.iter_succ, IH. now apply Hp.
  - intros n s Hs. induction n as [|n IH]; [reflexivity|].
    rewrite Nat.iter_succ, IH. now apply Hr.
  - intros p0 evs Hevs.
    assert (Hns : forallb (fun ev : Event X => negb (is_start ev)) evs = true).
    { rewrite forallb_forall in *. intros ev Hev. specialize (Hevs ev Hev).
      destruct ev as [m|x]; [|reflexivity]. cbn in *.
      destruct (action_of m); cbn in *; congruence. }
    destruct (before_start p0 evs Hns) as (_ & Hst & _ & Hrc & Hsub & _).
    auto.
Qed.

(** C9.  [createPausable] subscribes the pipeline exactly once, and no
    method of the handle subscribes it again; the controller it returns is
    in state [Stopped] with nothing received and the producer untouched;
    and as long as no start has been called the producer has never been
    subscribed: its state has only moved by its own environment. *)
Theorem C9_construction_subscribes_once_and_stays_inert (p0 : P) :
  pipelines (createPausable source p0) = 1 /\
  closed (createPausable source p0) = false /\
  state (createPausable source p0) = Stopped /\
  received (createPausable source p0) = [] /\
  subscribes (createPausable source p0) = 0 /\
  producer (createPausable source p0) = p0 /\
  (forall evs, pipelines (run source evs (createPausable source p0)) = 1) /\
  (forall evs,
      forallb (fun ev => negb (is_start ev)) evs = true ->
      subscribes (run source evs (createPausable source p0)) = 0 /\
      state (run source evs (createPausable source p0)) = Stopped /\
      received (run source evs (createPausable source p0)) = [] /\
      producer (run source evs (createPausable source p0)) =
      fold_left (fun p x => snd (react source x p)) (inputs evs) p0).
Proof.
  repeat (split; [reflexivity|]).
  split.
  - intros evs. apply (inv_pipelines (reachable_inv evs p0)).
  - intros evs Hevs.
    destruct (before_start p0 evs Hevs) as (_ & Hst & _ & Hrc & Hsub & _ & Hp).
    auto.
Qed.


End Invariants.

(** ** Cold producers of the test suite *)

Lemma forwarded_of {T E : Type} (vs : list T) :
  forwarded (map Next vs ++ [@Complete T E]) = map Next vs.
Proof. induction vs as [|v vs IH]; cbn; [reflexivity|now rewrite IH]. Qed.

Lemma of_no_error {X T E : Type} (vs : list T) (p : unit) (e : E) :
  ~ In (Error e) (fst (subscribe (@of_ X T E vs) p)).
Proof.
  cbn. intros H. apply in_app_or in H. destruct H as [H|[H|[]]]; [|discriminate].
  apply in_map_iff in H. destruct H as (v & Hv & _). discriminate.
Qed.



Lemma interval_only_values (period : nat) :
  only_values (@interval nat period).
Proof.
  split.
  - intros p. constructor.
  - intros x [[elapsed n]|]; [|cbn; constructor].
    cbn [react interval]. destruct (S elapsed =? period); cbn; repeat constructor.
Qed.


(** ** The tests of the repository, replayed *)

(** '#02 #0 should ignore invalid transitions'. *)
Example test_ignore_invalid_transitions :
  received (run of_123 [Call MPause; Call MResume] (createPausable of_123 tt)) = [] /\
  received (run of_123 [Call MPause; Call MResume; Call MStart] (createPausable of_123 tt))
    = [Next 1; Next 2; Next 3].
Proof. split; reflexivity. Qed.

(** '#06 #0 should handle rapid state changes', on [interval(50)]. *)
Example test_rapid_state_changes :
  received
    (run (@interval nat 50)
       ([Call MStart] ++ advanceTimersByTime tt 100 ++
        [Call MPause; Call MResume; Call MPause; Call MResume] ++
        advanceTimersByTime tt 100)
       (createPausable (@interval nat 50) None))
  = [Next 0; Next 1; Next 0; Next 1].
Proof. vm_compute. reflexivity. Qed.

(** '#06 #1 should work with hot observables'. *)
Example test_hot_observable :
  received
    (run (@subject nat nat)
       [Env 1; Call MStart; Env 2; Env 3; Call MPause; Env 4; Call MResume; Env 5]
       (createPausable (@subject nat nat) tt))
  = [Next 2; Next 3; Next 5].
Proof. reflexivity. Qed.

(** '#05 #0 should propagate errors from source observable'. *)
Example test_propagate_errors :
  received (run throwError_7 [Call MStart] (createPausable throwError_7 tt)) = [Error 7].
Proof. reflexivity. Qed.

(** ** The claims on the scenarios of the test suite *)




(** C7, as stated, fails: at t=450 the sink has not received 0 then 1. *)
Lemma C7_counterexample :
  received (run interval_100 pause_resume_scenario (createPausable interval_100 None))
  <> [Next 0; Next 1].
Proof. vm_compute. discriminate. Qed.

(** C7, amended.  On [interval(100)], with start at t=0, pause at t=150,
    resume at t=350 and observation at t=450, the sink has received 0 by
    the time of the pause, nothing more by t=350, and at t=450 it has
    received 0 and 0 again: the resume subscribed to the producer afresh
    and the fresh timer counts from 0. *)
Theorem C7_pause_resume_restarts_the_interval :
  received (run interval_100 ([Call MStart] ++ advanceTimersByTime tt 150)
              (createPausable interval_100 None)) = [Next 0] /\
  received (run interval_100
              ([Call MStart] ++ advanceTimersByTime tt 150 ++
               [Call MPause] ++ advanceTimersByTime tt 200)
              (createPausable interval_100 None)) = [Next 0] /\
  received (run interval_100 pause_resume_scenario (createPausable interval_100 None))
    = [Next 0; Next 0] /\
  subscribes (run interval_100 pause_resume_scenario (createPausable interval_100 None))
    = 2.
Proof. vm_compute. repeat split. Qed.


(** C3, as stated, fails: [of(1, 2, 3)] completes while the state is
    [Running], and the sink is not handed the completion. *)
Lemma C3_counterexample :
  In Complete (fst (subscribe of_123 tt)) /\
  state (run of_123 [Call MStart] (createPausable of_123 tt)) = Running /\
  received (run of_123 [Call MStart] (createPausable of_123 tt))
    = [Next 1; Next 2; Next 3] /\
  ~ In Complete (received (run of_123 [Call MStart] (createPausable of_123 tt))).
Proof.
  split; [cbn; auto|]. split; [reflexivity|]. split; [reflexivity|].
  vm_compute. intros [H|[H|[H|[]]]]; discriminate.
Qed.


(** ** Instances *)

(** C1 on [of(1, 2, 3)] with one call of each command. *)
Lemma C1_witness :
  closed (run of_123 commands_scenario (createPausable of_123 tt)) = false /\
  state (run of_123 commands_scenario (createPausable of_123 tt)) =
  fold_left transition (actions commands_scenario) Stopped.
Proof.
  split; [reflexivity|].
  apply (proj2 (proj2 (proj2 (proj2 (C1_lifecycle_is_fold_of_table of_123))))).
  reflexivity.
Defined.


(** C3 on [interval(100)]: the value due at t=100 is forwarded; a paused
    controller hears nothing, and a resume subscribes afresh. *)
Lemma C3_witness :
  (innerSubscriber (run interval_100 ([Call MStart] ++ advanceTimersByTime tt 99)
                      (createPausable interval_100 None)) = true /\
   received (environment interval_100 tt
               (run interval_100 ([Call MStart] ++ advanceTimersByTime tt 99)
                  (createPausable interval_100 None))) = [Next 0]) /\
  (closed (run interval_100 paused_scenario (createPausable interval_100 None)) = false /\
   reducer (state (run interval_100 paused_scenario (createPausable interval_100 None)))
     Resume = Running /\
   state (run interval_100 paused_scenario (createPausable interval_100 None)) <> Running /\
   reducer (state (run interval_100 paused_scenario (createPausable interval_100 None)))
     Pause <> Running /\
   received (command interval_100 Resume
               (run interval_100 paused_scenario (createPausable interval_100 None)))
     = [Next 0] /\
   received (environment interval_100 tt
               (run interval_100 paused_scenario (createPausable interval_100 None)))
     = [Next 0] /\
   received (command interval_100 Pause
               (run interval_100 paused_scenario (createPausable interval_100 None)))
     = [Next 0]).
Proof.
  pose proof (C3_values_and_errors_are_forwarded interval_100 None
                ([Call MStart] ++ advanceTimersByTime tt 99)) as Hrunning.
  pose proof (C3_values_and_errors_are_forwarded interval_100 None paused_scenario)
    as Hpaused.
  cbv zeta in Hrunning, Hpaused.
  destruct Hrunning as (_ & _ & Hvalues & _).
  destruct Hpaused as (_ & _ & _ & Hresume & Hsilent & Hpause).
  assert (Hin : innerSubscriber (run interval_100 ([Call MStart] ++ advanceTimersByTime tt 99)
                                   (createPausable interval_100 None)) = true)
    by (vm_compute; reflexivity).
  assert (Hopen : closed (run interval_100 paused_scenario
                            (createPausable interval_100 None)) = false)
    by (vm_compute; reflexivity).
  assert (Hres : reducer (state (run interval_100 paused_scenario
                                   (createPausable interval_100 None))) Resume = Running)
    by (vm_compute; reflexivity).
  assert (Hst : state (run interval_100 paused_scenario
                         (createPausable interval_100 None)) <> Running)
    by (vm_compute; discriminate).
  assert (Hpa : reducer (state (run interval_100 paused_scenario
                                  (createPausable interval_100 None))) Pause <> Running)
    by (vm_compute; discriminate).
  split; [split; [exact Hin|]|repeat (split; [assumption|])].
  - rewrite (Hvalues tt Hin). vm_compute. reflexivity.
  - split; [|split].
    + rewrite (Hresume Resume Hopen Hres). vm_compute. reflexivity.
    + rewrite (Hsilent Hst tt). vm_compute. reflexivity.
    + rewrite (Hpause Pause Hpa). vm_compute. reflexivity.
Defined.


Lemma throwError_7_throws : throws_on_subscribe throwError_7 7.
Proof. intros p. exists []. reflexivity. Qed.


(** C6 on [throwError(() => 7)]. *)
Lemma C6_witness :
  throws_on_subscribe throwError_7 7 /\
  received (run throwError_7 (idle_scenario ++ Call MStart :: commands_scenario)
              (createPausable throwError_7 tt)) = [Error 7] /\
  In (Error 7) (received (run throwError_7 [Call MStart] (createPausable throwError_7 tt))) /\
  received (run throwError_7 ([Call MStart] ++ commands_scenario)
              (createPausable throwError_7 tt)) =
  received (run throwError_7 [Call MStart] (createPausable throwError_7 tt)).
Proof.
  assert (Hin : In (Error 7) (received (run throwError_7 [Call MStart]
                                          (createPausable throwError_7 tt))))
    by (vm_compute; left; reflexivity).
  split; [exact throwError_7_throws|]. split; [|split; [exact Hin|]].
  - apply (proj1 (C6_producer_error_is_terminal throwError_7 7 tt
                    idle_scenario commands_scenario)).
    + exact throwError_7_throws.
    + reflexivity.
  - exact (proj2 (C6_producer_error_is_terminal throwError_7 7 tt
                    [Call MStart] commands_scenario) Hin).
Defined.

(** C8 on [interval(100)] with pauses and resumes before any start. *)
Lemma C8_witness :
  Stopped <> Running /\ reducer Stopped Pause = Stopped /\
  Running <> Paused /\ reducer Running Resume = Running /\
  Nat.iter 5 (fun t => reducer t Pause) Paused = Paused /\
  Nat.iter 5 (fun t => reducer t Resume) Stopped = Stopped /\
  forallb is_pause_or_resume idle_scenario = true /\
  state (run interval_100 idle_scenario (createPausable interval_100 None)) = Stopped /\
  received (run interval_100 idle_scenario (createPausable interval_100 None)) = [] /\
  subscribes (run interval_100 idle_scenario (createPausable interval_100 None)) = 0.
Proof.
  pose proof (C8_invalid_pause_and_resume_are_noops interval_100)
    as (Hp & Hr & Hpn & Hrn & Hidle).
  assert (H1 : Stopped <> Running) by discriminate.
  assert (H2 : Running <> Paused) by discriminate.
  assert (H3 : Paused <> Running) by discriminate.
  assert (H4 : Stopped <> Paused) by discriminate.
  assert (H5 : forallb is_pause_or_resume idle_scenario = true) by reflexivity.
  split; [exact H1|]. split; [exact (Hp Stopped H1)|].
  split; [exact H2|]. split; [exact (Hr Running H2)|].
  split; [exact (Hpn 5 Paused H3)|]. split; [exact (Hrn 5 Stopped H4)|].
  split; [exact H5|]. exact (Hidle None idle_scenario H5).
Defined.

(** C9 on [interval(100)]: a stop, pauses and resumes, and no start. *)
Lemma C9_witness :
  forallb (fun ev : Event unit => negb (is_start ev)) (Call MStop :: idle_scenario) = true /\
  subscribes (run interval_100 (Call MStop :: idle_scenario)
                (createPausable interval_100 None)) = 0 /\
  state (run interval_100 (Call MStop :: idle_scenario)
           (createPausable interval_100 None)) = Stopped /\
  received (run interval_100 (Call MStop :: idle_scenario)
              (createPausable interval_100 None)) = [] /\
  producer (run interval_100 (Call MStop :: idle_scenario)
              (createPausable interval_100 None)) = None.
Proof.
  assert (H : forallb (fun ev : Event unit => negb (is_start ev))
                (Call MStop :: idle_scenario) = true) by reflexivity.
  split; [exact H|].
  exact (proj2 (proj2 (proj2 (proj2 (proj2 (proj2 (proj2
           (C9_construction_subscribes_once_and_stays_inert interval_100 None)))))))
           (Call MStop :: idle_scenario) H).
Defined.


(** * Further properties of the controller *)

Section Controller.

Context {X T E P : Type}.
Variable source : Observable X T E P.

Local Abbreviation Ctl := (Controller T E P).

Ltac open_ctl c :=
  destruct c as [p pl cl st inner ic rcv subs unsubs]; cbn in *.

Ltac unfold_handlers :=
  unfold inner_notify, sink_next, sink_error, sink_complete, checkComplete,
    teardown, unsubscribe_inner, release, hand, set_closed, set_state,
    set_innerSubscriber, set_producer in *; cbn in *.

Lemma forwarded_shape (ns : list (Notification T E)) :
  (exists vs, forwarded ns = map Next vs) \/
  (exists vs e, forwarded ns = map Next vs ++ [Error e]).
Proof.
  induction ns as [|[v|e|] ns IH]; cbn.
  - left. now exists [].
  - destruct IH as [[vs H]|[vs [e H]]]; rewrite H.
    + left. now exists (v :: vs).
    + right. now exists (v :: vs), e.
  - right. now exists [], e.
  - left. now exists [].
Qed.

Lemma values_map (l : list (Notification T E)) :
  Forall is_value l -> exists vs, l = map Next vs.
Proof.
  induction 1 as [|n l Hn _ [vs ->]].
  - now exists [].
  - destruct n as [v|e|]; try contradiction. now exists (v :: vs).
Qed.

Lemma map_Next_values (vs : list T) : Forall is_value (map (@Next T E) vs).
Proof. induction vs; constructor; cbn; auto. Qed.

(** A burst closes the pipeline only by an error. *)
Lemma deliver_closes (ns : list (Notification T E)) (c : Ctl) :
  inv c -> innerSubscriber c = true -> closed (deliver source ns c) = true ->
  exists vs e, forwarded ns = map Next vs ++ [Error e].
Proof.
  revert c; induction ns as [|n ns IH]; intros c Hinv Hin Hcl; cbn [deliver] in Hcl.
  - destruct (inv_inner Hinv Hin) as [_ H]. congruence.
  - rewrite Hin in Hcl. destruct (inv_inner Hinv Hin) as [Hst Hopen].
    pose proof (inner_notify_inv source n Hinv Hin) as Hinv'.
    destruct n as [v|e|]; cbn [forwarded].
    + destruct (IH _ Hinv') as (vs & e & H); [| exact Hcl |].
      * open_ctl c. subst. unfold_handlers. reflexivity.
      * rewrite H. now exists (v :: vs), e.
    + now exists [], e.
    + rewrite deliver_dropped in Hcl.
      * pose proof (inv_isComplete Hinv) as Hic.
        open_ctl c. subst. unfold_handlers. discriminate.
      * pose proof (inv_isComplete Hinv) as Hic.
        open_ctl c. subst. unfold_handlers. reflexivity.
Qed.

Lemma step_closes (ev : Event X) (c : Ctl) :
  inv c -> closed c = false -> closed (step source c ev) = true ->
  exists vs e, received (step source c ev) = received c ++ map Next vs ++ [Error e].
Proof.
  intros Hinv Hopen Hcl. destruct ev as [m|x]; cbn [step] in *.
  - rewrite invoke_control_next in *. unfold control_next in *. rewrite Hopen in *.
    rewrite scan_next_received by assumption.
    destruct (state_eqb (reducer (state c) (action_of m)) Running) eqn:Hrun.
    + pose proof (inv_isComplete Hinv) as Hic.
      assert (H : exists vs e,
                 forwarded (fst (subscribe source (producer (unsubscribe_inner source c))))
                 = map Next vs ++ [Error e]).
      { apply state_eqb_eq in Hrun. destruct Hinv as [Hp _ Hi Hn Hv Hnc].
        open_ctl c. subst.
        unfold scan_next, switchMap_next, project, subscribe_source in Hcl. cbn in Hcl.
        rewrite Hrun in Hcl. cbn in Hcl.
        destruct inner; unfold_handlers;
          match goal with |- context [subscribe source ?q] =>
            destruct (subscribe source q) as [ns p'] end;
          cbn [fst];
          match type of Hcl with closed (deliver source ?l ?d) = true =>
            apply (@deliver_closes l d); [|reflexivity|exact Hcl] end;
          constructor; cbn; auto; lia. }
      destruct H as (vs & e & H). rewrite H. now exists vs, e.
    + destruct (@scan_next_silent _ _ _ _ source (action_of m) c Hopen
                  (inv_isComplete Hinv) Hrun) as (H & _). congruence.
  - rewrite environment_received by assumption.
    unfold environment in Hcl.
    destruct (react source x (producer c)) as [ns p'] eqn:Hre. cbn [fst].
    destruct (innerSubscriber c) eqn:Hin.
    + destruct (@deliver_closes ns (set_producer p' c)) as (vs & e & H); auto.
      * destruct Hinv. open_ctl c. constructor; cbn; auto.
      * rewrite H. now exists vs, e.
    + rewrite deliver_dropped in Hcl by exact Hin. cbn in Hcl. congruence.
Qed.

(** X1.  What the sink has been handed is always a run of values; it ends
    with an error exactly when the pipeline has been torn down, and that
    error is the only one and the last notification. *)
Theorem sink_log_is_values_then_at_most_one_error (p0 : P) (evs : list (Event X)) :
  (closed (run source evs (createPausable source p0)) = false /\
   exists vs, received (run source evs (createPausable source p0)) = map Next vs) \/
  (closed (run source evs (createPausable source p0)) = true /\
   exists vs e,
     received (run source evs (createPausable source p0)) = map Next vs ++ [Error e]).
Proof.
  induction evs as [|ev evs IH] using rev_ind.
  - left. split; [reflexivity|]. now exists [].
  - rewrite run_snoc. pose proof (reachable_inv source evs p0) as Hinv.
    pose proof (step_inv source ev Hinv) as Hinv'.
    destruct IH as [[Hopen [vs Hvs]]|[Hcl (vs & e & Hvs)]].
    + destruct (closed (step source _ ev)) eqn:Hcl'.
      * right. split; [reflexivity|].
        destruct (step_closes ev Hinv Hopen Hcl') as (ws & e & H).
        rewrite H, Hvs, app_assoc, <- map_app. now exists (vs ++ ws), e.
      * left. split; [reflexivity|]. apply values_map, (inv_values Hinv' Hcl').
    + right. destruct (step_closed source ev Hinv Hcl) as [H1 H2].
      split; [exact H1|]. rewrite H2, Hvs. now exists vs, e.
Qed.

(** A command that leaves a controller without inner subscription in the
    state it is in, that state not being [Running], changes nothing. *)
Lemma scan_next_noop (a : Action) (c : Ctl) :
  isComplete c = false -> innerSubscriber c = false ->
  reducer (state c) a = state c -> state c <> Running ->
  scan_next source a c = c.
Proof.
  intros Hic Hin Hred Hst. open_ctl c. subst.
  unfold scan_next, switchMap_next, project. cbn. rewrite Hred.
  destruct st; try congruence; reflexivity.
Qed.

Lemma control_next_twice (a : Action) (c : Ctl) :
  inv c -> (forall s, reducer s a <> Running) ->
  (forall s, reducer (reducer s a) a = reducer s a) ->
  control_next source a (control_next source a c) = control_next source a c.
Proof.
  intros Hinv Hnr Hidem. unfold control_next at 2 3.
  destruct (closed c) eqn:Hcl.
  - unfold control_next. now rewrite Hcl.
  - pose proof (inv_isComplete Hinv) as Hic.
    assert (Hrun : state_eqb (reducer (state c) a) Running = false).
    { destruct (state_eqb _ Running) eqn:H; [|reflexivity].
      apply state_eqb_eq in H. destruct (Hnr _ H). }
    destruct (@scan_next_silent _ _ _ _ source a c Hcl Hic Hrun) as (H1 & H2 & _).
    destruct (@scan_next_frame _ _ _ _ source a c Hic) as (F1 & _ & _ & F4).
    unfold control_next. rewrite H1. apply scan_next_noop; auto.
    + rewrite F1. apply Hidem.
    + rewrite F1. apply Hnr.
Qed.

(** X2.  [stop] and [pause] are idempotent on the whole controller: a
    second call in a row changes neither the state, nor the producer, nor
    what the sink has received, nor the subscription counts. *)
Theorem stop_and_pause_are_idempotent (p0 : P) (evs : list (Event X)) :
  stop source (stop source (run source evs (createPausable source p0))) =
  stop source (run source evs (createPausable source p0)) /\
  pause source (pause source (run source evs (createPausable source p0))) =
  pause source (run source evs (createPausable source p0)).
Proof.
  pose proof (reachable_inv source evs p0) as Hinv. unfold stop, pause. split.
  - apply control_next_twice; [exact Hinv| |]; intros s; destruct s; cbn; congruence.
  - apply control_next_twice; [exact Hinv| |]; intros s; destruct s; cbn; congruence.
Qed.

Lemma scan_next_after_silent (a b : Action) (c : Ctl) :
  isComplete c = false ->
  state_eqb (reducer (state c) a) Running = false ->
  scan_next source b (scan_next source a c) =
  switchMap_next source (reducer (reducer (state c) a) b)
    (set_state (reducer (reducer (state c) a) b) c).
Proof.
  intros Hic Hrun. open_ctl c. subst.
  destruct inner, st, a; try discriminate Hrun; destruct b; reflexivity.
Qed.

(** X3.  [start] is a restart: on every controller it does what [stop]
    followed by [start] does.  And from [Running] or [Paused], [pause]
    followed by [resume] does the same as [start]: the subscription held
    is torn down and the producer is subscribed anew, so a pause does not
    keep the producer's position. *)
Theorem start_is_stop_then_start (p0 : P) (evs : list (Event X)) :
  start source (stop source (run source evs (createPausable source p0))) =
  start source (run source evs (createPausable source p0)) /\
  (state (run source evs (createPausable source p0)) <> Stopped ->
   resume source (pause source (run source evs (createPausable source p0))) =
   start source (run source evs (createPausable source p0))).
Proof.
  pose proof (reachable_inv source evs p0) as Hinv.
  pose proof (inv_isComplete Hinv) as Hic.
  set (c := run source evs (createPausable source p0)) in *.
  unfold start, stop, pause, resume. split.
  - unfold control_next at 2 3. destruct (closed c) eqn:Hcl.
    + unfold control_next. now rewrite Hcl.
    + assert (Hrun : state_eqb (reducer (state c) Stop) Running = false)
        by (destruct (state c); reflexivity).
      destruct (@scan_next_silent _ _ _ _ source Stop c Hcl Hic Hrun) as (H1 & _).
      unfold control_next. rewrite H1, scan_next_after_silent by assumption.
      unfold scan_next. destruct (state c); reflexivity.
  - intros Hst. unfold control_next at 2 3. destruct (closed c) eqn:Hcl.
    + unfold control_next. now rewrite Hcl.
    + assert (Hrun : state_eqb (reducer (state c) Pause) Running = false)
        by (destruct (state c); reflexivity).
      destruct (@scan_next_silent _ _ _ _ source Pause c Hcl Hic Hrun) as (H1 & _).
      unfold control_next. rewrite H1, scan_next_after_silent by assumption.
      unfold scan_next. destruct (state c); try congruence; reflexivity.
Qed.

End Controller.

(** ** The controller on hot and cold producers *)

Lemma gated_snoc {T : Type} (evs : list (Event T)) (ev : Event T) (s : State) :
  gated s (evs ++ [ev]) =
  gated s evs ++
  match ev with
  | Call _ => []
  | Env v => if state_eqb (fold_left transition (actions evs) s) Running then [v] else []
  end.
Proof.
  revert s; induction evs as [|e evs IH]; intros s.
  - destruct ev as [m|v]; cbn; [reflexivity|]. now rewrite app_nil_r.
  - destruct e as [m|w]; cbn [app gated].
    + rewrite IH. reflexivity.
    + rewrite IH, app_assoc. reflexivity.
Qed.

Lemma subject_only_values {T E : Type} : only_values (@subject T E).
Proof. split; intros; cbn; repeat constructor. Qed.

(** X4.  On a subject (a hot producer) the controller is a gate: the sink
    has received exactly the values that were pushed while the commands
    issued so far had the controller in [Running], in the order they were
    pushed; values pushed while stopped or paused are lost, not buffered. *)
Theorem hot_producer_is_gated {T E : Type} (evs : list (Event T)) :
  received (run (@subject T E) evs (createPausable (@subject T E) tt)) =
  map Next (gated Stopped evs).
Proof.
  induction evs as [|ev evs IH] using rev_ind; [reflexivity|].
  rewrite run_snoc, gated_snoc, map_app, <- IH.
  pose proof (reachable_inv (@subject T E) evs tt) as Hinv.
  destruct (run_steady tt evs (@subject_only_values T E)) as [Hcl Hin].
  destruct (run_open (@subject T E) tt evs Hcl) as [Hst _].
  destruct ev as [m|v]; cbn [step].
  - rewrite invoke_control_next. unfold control_next. rewrite Hcl.
    rewrite scan_next_received by assumption. cbn [subscribe subject fst forwarded].
    destruct (state_eqb (reducer _ _) Running); reflexivity.
  - rewrite environment_received by assumption.
    rewrite Hin, Hst. cbn [react subject fst forwarded].
    destruct (state_eqb (fold_left transition (actions evs) Stopped) Running);
      reflexivity.
Qed.

Lemma of_stays_open {X T E : Type} (vs : list T) (evs : list (Event X)) :
  closed (run (@of_ X T E vs) evs (createPausable (@of_ X T E vs) tt)) = false.
Proof.
  induction evs as [|ev evs IH] using rev_ind; [reflexivity|].
  rewrite run_snoc. pose proof (reachable_inv (@of_ X T E vs) evs tt) as Hinv.
  destruct ev as [m|x]; cbn [step].
  - rewrite invoke_control_next.
    apply control_next_open; [exact Hinv|exact IH|apply of_no_error].
  - unfold environment. cbn [react of_ deliver]. exact IH.
Qed.

Lemma concat_repeat_snoc {A : Type} (l : list A) (n : nat) :
  concat (repeat l (n + 1)) = concat (repeat l n) ++ l.
Proof.
  induction n as [|n IH]; cbn.
  - now rewrite app_nil_r.
  - rewrite IH. now rewrite app_assoc.
Qed.

(** X5.  On [of(v1, ..., vn)] (a cold producer that emits inside
    subscribe) the sink has received the whole list once for every command
    that led to [Running], whatever else was called in between. *)
Theorem cold_producer_replays_once_per_entry
    {X T E : Type} (vs : list T) (evs : list (Event X)) :
  received (run (@of_ X T E vs) evs (createPausable (@of_ X T E vs) tt)) =
  concat (repeat (map Next vs) (entries Stopped (actions evs))).
Proof.
  induction evs as [|ev evs IH] using rev_ind; [reflexivity|].
  pose proof (of_stays_open (E:=E) vs evs) as Hcl.
  pose proof (reachable_inv (@of_ X T E vs) evs tt) as Hinv.
  destruct (run_open (@of_ X T E vs) tt evs Hcl) as [Hst _].
  rewrite run_snoc, actions_snoc. destruct ev as [m|x]; cbn [step].
  - rewrite invoke_control_next. unfold control_next. rewrite Hcl.
    rewrite scan_next_received by assumption.
    rewrite entries_snoc, IH, Hst, reducer_transition.
    cbn [subscribe of_ fst]. rewrite forwarded_of.
    destruct (state_eqb (transition _ _) Running).
    + now rewrite concat_repeat_snoc.
    + now rewrite Nat.add_0_r, app_nil_r.
  - rewrite app_nil_r. rewrite environment_received by assumption.
    cbn [react of_ fst forwarded]. destruct (innerSubscriber _); rewrite app_nil_r; exact IH.
Qed.

(** *** A cold timer *)

Lemma interval_tick {E : Type} (period e k : nat) (rcv : list (Notification nat E))
    (d : Controller nat E (option (nat * nat))) :
  inv d /\ innerSubscriber d = true /\ producer d = Some (e, k) /\ received d = rcv ->
  let d' := environment (@interval E period) tt d in
  inv d' /\ innerSubscriber d' = true /\
  producer d' = (if S e =? period then Some (0, S k) else Some (S e, k)) /\
  received d' = rcv ++ (if S e =? period then [Next k] else []).
Proof.
  intros (Hinv & Hin & Hp & Hr). cbn zeta.
  split; [now apply environment_inv|].
  destruct (inv_inner Hinv Hin) as [_ Hcl].
  rewrite environment_received by assumption. rewrite Hin, Hp, Hr.
  unfold environment. rewrite Hp. cbn [react interval].
  destruct (S e =? period); cbn [fst forwarded deliver].
  - destruct d as [p pl cl st inner ic rcv' subs unsubs]; cbn in *; subst.
    cbn. auto.
  - rewrite app_nil_r. destruct d; cbn in *; subst. auto.
Qed.

Lemma interval_quiet_ticks {E : Type} (period j e k : nat)
    (rcv : list (Notification nat E)) (d : Controller nat E (option (nat * nat))) :
  e + j < period ->
  inv d /\ innerSubscriber d = true /\ producer d = Some (e, k) /\ received d = rcv ->
  let d' := run (@interval E period) (advanceTimersByTime tt j) d in
  inv d' /\ innerSubscriber d' = true /\ producer d' = Some (e + j, k) /\
  received d' = rcv.
Proof.
  revert e d; induction j as [|j IH]; intros e d Hlt H; cbn zeta.
  - rewrite Nat.add_0_r. exact H.
  - unfold advanceTimersByTime. cbn [repeat]. rewrite run_cons. cbn [step].
    pose proof (interval_tick period H) as H'. cbn zeta in H'.
    assert (Hne : (S e =? period) = false) by (apply Nat.eqb_neq; lia).
    rewrite Hne, app_nil_r in H'.
    replace (e + S j) with (S e + j) by lia.
    apply (IH (S e)); [lia|exact H'].
Qed.

Lemma interval_one_period {E : Type} (period k : nat)
    (rcv : list (Notification nat E)) (d : Controller nat E (option (nat * nat))) :
  0 < period ->
  inv d /\ innerSubscriber d = true /\ producer d = Some (0, k) /\ received d = rcv ->
  let d' := run (@interval E period) (advanceTimersByTime tt period) d in
  inv d' /\ innerSubscriber d' = true /\ producer d' = Some (0, S k) /\
  received d' = rcv ++ [Next k].
Proof.
  intros Hpos H. cbn zeta.
  assert (Hrep : repeat (@Env unit tt) period = repeat (Env tt) (period - 1) ++ [Env tt]).
  { replace period with ((period - 1) + 1) at 1 by lia. now rewrite repeat_app. }
  unfold advanceTimersByTime. rewrite Hrep, run_app.
  pose proof (@interval_quiet_ticks E period (period - 1) 0 k rcv d
                ltac:(lia) H) as H1.
  cbn zeta in H1. unfold advanceTimersByTime in H1.
  cbn [run fold_left step].
  pose proof (interval_tick period H1) as H2. cbn zeta in H2.
  assert (Heq : (S (0 + (period - 1)) =? period) = true) by (apply Nat.eqb_eq; lia).
  rewrite Heq in H2. exact H2.
Qed.

Lemma interval_periods {E : Type} (period n k : nat)
    (rcv : list (Notification nat E)) (d : Controller nat E (option (nat * nat))) :
  0 < period ->
  inv d /\ innerSubscriber d = true /\ producer d = Some (0, k) /\ received d = rcv ->
  let d' := run (@interval E period) (advanceTimersByTime tt (n * period)) d in
  inv d' /\ innerSubscriber d' = true /\ producer d' = Some (0, k + n) /\
  received d' = rcv ++ map Next (seq k n).
Proof.
  intros Hpos. revert k rcv d; induction n as [|n IH]; intros k rcv d H; cbn zeta.
  - cbn. rewrite Nat.add_0_r, app_nil_r. exact H.
  - cbn [Nat.mul]. unfold advanceTimersByTime. rewrite repeat_app, run_app.
    pose proof (interval_one_period Hpos H) as H1. cbn zeta in H1.
    pose proof (IH _ _ _ H1) as H2. cbn zeta in H2.
    unfold advanceTimersByTime in *.
    replace (k + S n) with (S k + n) by lia.
    cbn [seq map]. rewrite <- app_assoc in H2. exact H2.
Qed.

Lemma interval_subscribed {E : Type} (period : nat) (a : Action)
    (c : Controller nat E (option (nat * nat))) :
  reducer (state c) a = Running ->
  producer (scan_next (@interval E period) a c) = Some (0, 0) /\
  innerSubscriber (scan_next (@interval E period) a c) = true.
Proof.
  intros Hrun. destruct c as [p pl cl st inner ic rcv subs unsubs]; cbn in *.
  unfold scan_next, switchMap_next, project. cbn. rewrite Hrun. cbn.
  destruct inner; cbn; auto.
Qed.

(** X6.  On [interval(period)] every command that leads to [Running]
    (a start, or a resume from [Paused] or [Running]) makes the timer count
    from 0 again: after [n] full periods and [r] further time units the
    sink has received 0, 1, ..., n-1 on top of what it had. *)
Theorem cold_timer_restarts_from_zero
    (period n r : nat) (evs : list (Event unit)) (a : Action) :
  0 < period -> r < period ->
  reducer (state (run (@interval nat period) evs
                    (createPausable (@interval nat period) None))) a = Running ->
  received
    (run (@interval nat period) (advanceTimersByTime tt (n * period + r))
       (command (@interval nat period) a
          (run (@interval nat period) evs (createPausable (@interval nat period) None))))
  = received (run (@interval nat period) evs
                (createPausable (@interval nat period) None))
    ++ map Next (seq 0 n).
Proof.
  intros Hpos Hr Hrun.
  set (c := run (@interval nat period) evs (createPausable (@interval nat period) None)) in *.
  pose proof (reachable_inv (@interval nat period) evs None) as Hinv. fold c in Hinv.
  destruct (run_steady None evs (interval_only_values period)) as [Hcl _].
  fold c in Hcl.
  assert (H0 : inv (command (@interval nat period) a c) /\
               innerSubscriber (command (@interval nat period) a c) = true /\
               producer (command (@interval nat period) a c) = Some (0, 0) /\
               received (command (@interval nat period) a c) = received c).
  { split; [apply control_next_inv, Hinv|].
    unfold command, control_next. rewrite Hcl.
    destruct (interval_subscribed period a c Hrun) as [Hp Hin].
    split; [exact Hin|]. split; [exact Hp|].
    rewrite scan_next_received by assumption. rewrite Hrun. cbn. apply app_nil_r. }
  unfold advanceTimersByTime. rewrite repeat_app, run_app.
  pose proof (interval_periods n Hpos H0) as H1. cbn zeta in H1.
  pose proof (@interval_quiet_ticks nat period r 0 _ _ _ ltac:(lia) H1) as H2.
  cbn zeta in H2. unfold advanceTimersByTime in *.
  destruct H2 as (_ & _ & _ & H2). exact H2.
Qed.

(** * The operators with a history *)

Lemma combine_map_S {A : Type} (l : list A) (ns : list nat) :
  combine l (map S ns) = map (fun vi => (fst vi, S (snd vi))) (combine l ns).
Proof.
  revert ns; induction l as [|a l IH]; intros [|n ns]; cbn; try reflexivity.
  now rewrite IH.
Qed.

Lemma with_history_cons {T : Type} (before : list T) (start : nat) (v : T) (rest : list T) :
  with_history before start (v :: rest) =
  (v, start, before ++ [v]) :: with_history (before ++ [v]) (S start) rest.
Proof.
  unfold with_history. cbn [length seq combine map fst snd firstn].
  rewrite Nat.add_0_r. f_equal.
  rewrite <- seq_shift, combine_map_S, map_map. apply map_ext.
  intros [w i]. cbn [fst snd firstn]. rewrite <- app_assoc. cbn [app].
  f_equal. f_equal. lia.
Qed.

(** ** tapWhile *)

Lemma tapWhile_calls {T : Type} (predicate : Predicate T) (values : list T)
    (st : Tap.Closure T) :
  Tap.tapWhile predicate values st =
  ({| Tap.all := Tap.all st ++ values; Tap.index := Tap.index st + length values |},
   List.filter (fun c => predicate (fst (fst c)) (snd (fst c)) (snd c))
     (with_history (Tap.all st) (Tap.index st) values)).
Proof.
  revert st; induction values as [|v rest IH]; intros st.
  - cbn. rewrite app_nil_r, Nat.add_0_r. destruct st; reflexivity.
  - cbn [Tap.tapWhile]. unfold Tap.next at 1. rewrite IH. cbn [Tap.all Tap.index].
    rewrite with_history_cons. cbn [List.filter fst snd length].
    rewrite <- app_assoc. cbn [app]. rewrite Nat.add_succ_r.
    destruct (predicate v (Tap.index st) (Tap.all st ++ [v])); reflexivity.
Qed.

(** X7.  [tapWhile] of tap.ts calls the side effect exactly at the
    positions where the predicate holds, in order, with the arguments the
    predicate got.  Both the index and the history belong to the
    application of the operator, not to a subscription: in a subscription
    that follows one which saw [before], the index counts on from
    [length before] and the history starts with [before]. *)
Theorem tapWhile_calls_side_effect_where_predicate_holds
    {T : Type} (predicate : Predicate T) (before values : list T) :
  snd (Tap.tapWhile predicate values (fst (Tap.tapWhile predicate before Tap.applied))) =
  List.filter (fun c => predicate (fst (fst c)) (snd (fst c)) (snd c))
    (with_history before (length before) values).
Proof. rewrite !tapWhile_calls. reflexivity. Qed.

(** X8.  With a predicate that looks at the value only, [tapWhile] of
    tap.ts calls the side effect on the same values, in the same order, as
    [tapWhile] of tapWhile.ts: the values that satisfy the predicate. *)
Theorem tapWhile_versions_agree
    {T : Type} (p : T -> bool) (values : list T) (st : Tap.Closure T) :
  map (fun c => fst (fst c)) (snd (Tap.tapWhile (fun v _ _ => p v) values st)) =
  TapWhile.tapWhile p values /\
  TapWhile.tapWhile p values = List.filter p values.
Proof.
  split.
  - revert st; induction values as [|v rest IH]; intros st; [reflexivity|].
    cbn [Tap.tapWhile]. unfold Tap.next at 1.
    destruct (Tap.tapWhile _ rest _) as [st2 calls2] eqn:Hrest.
    cbn [snd]. rewrite map_app. specialize (IH {| Tap.all := Tap.all st ++ [v];
                                                   Tap.index := S (Tap.index st) |}).
    rewrite Hrest in IH. cbn [snd] in IH. rewrite IH.
    unfold TapWhile.tapWhile. cbn [flat_map]. unfold TapWhile.next at 2.
    destruct (p v); reflexivity.
  - unfold TapWhile.tapWhile, TapWhile.next.
    induction values as [|v rest IH]; [reflexivity|].
    cbn [flat_map List.filter]. rewrite IH. destruct (p v); reflexivity.
Qed.

(** ** filter *)

Lemma filter_emits {T : Type} (predicate : Predicate T) (values all : list T) (index : nat) :
  Filter.filter predicate values all index =
  (all ++ values,
   map (fun c => fst (fst c))
     (List.filter (fun c => predicate (fst (fst c)) (snd (fst c)) (snd c))
        (with_history all index values))).
Proof.
  revert all index; induction values as [|v rest IH]; intros all index.
  - cbn. now rewrite app_nil_r.
  - cbn [Filter.filter]. unfold Filter.next. rewrite IH.
    rewrite with_history_cons. cbn [List.filter fst snd].
    rewrite <- app_assoc. cbn [app].
    destruct (predicate v index (all ++ [v])); reflexivity.
Qed.

(** X9.  [filter] emits exactly the values at whose position the predicate
    holds, in order.  The index the predicate gets restarts at 0 with
    every subscription, the history does not: in a subscription that
    follows one which saw [before], the history handed to the predicate
    starts with [before], so it is longer than [index + 1]. *)
Theorem filter_emits_where_predicate_holds
    {T : Type} (predicate : Predicate T) (before values : list T) :
  fst (Filter.filter predicate before [] 0) = before /\
  snd (Filter.filter predicate values (fst (Filter.filter predicate before [] 0)) 0) =
  map (fun c => fst (fst c))
    (List.filter (fun c => predicate (fst (fst c)) (snd (fst c)) (snd c))
       (with_history before 0 values)).
Proof. rewrite !filter_emits. cbn [fst snd app]. split; reflexivity. Qed.

Lemma first_occurrence_spec {T : Type} (strict_eq : T -> T -> bool) (v : T)
    (index : nat) (all : list T) :
  (forall a b, strict_eq a b = true <-> a = b) ->
  Filter.first_occurrence strict_eq v index (all ++ [v]) = true <-> ~ In v all.
Proof.
  intros Heq. unfold Filter.first_occurrence.
  rewrite filter_app, length_app. cbn [List.filter].
  assert (Hvv : strict_eq v v = true) by now apply Heq.
  rewrite Hvv. cbn [length]. rewrite Nat.eqb_eq. split.
  - intros Hlen Hin.
    assert (Hf : In v (List.filter (fun w => strict_eq w v) all))
      by (apply filter_In; split; [exact Hin|exact Hvv]).
    destruct (List.filter _ all); [destruct Hf|cbn in Hlen; lia].
  - intros Hnin.
    destruct (List.filter (fun w => strict_eq w v) all) as [|w l] eqn:Hf; [reflexivity|].
    exfalso. assert (Hw : In w (List.filter (fun w => strict_eq w v) all))
      by (rewrite Hf; now left).
    apply filter_In in Hw. destruct Hw as [Hw1 Hw2]. apply Heq in Hw2. subst. auto.
Qed.

Lemma strict_eq_dec {T : Type} (strict_eq : T -> T -> bool) :
  (forall a b, strict_eq a b = true <-> a = b) -> forall a b : T, {a = b} + {a <> b}.
Proof.
  intros Heq a b. destruct (strict_eq a b) eqn:Hab.
  - left. now apply Heq.
  - right. intros ->. assert (strict_eq b b = true) by now apply Heq. congruence.
Qed.

Lemma first_occurrences {T : Type} (strict_eq : T -> T -> bool)
    (values all : list T) (index : nat) :
  (forall a b, strict_eq a b = true <-> a = b) ->
  let out := snd (Filter.filter (Filter.first_occurrence strict_eq) values all index) in
  NoDup out /\ forall x, In x out <-> In x values /\ ~ In x all.
Proof.
  intros Heq. revert all index; induction values as [|v rest IH]; intros all index.
  - cbn. split; [constructor|]. intros x. tauto.
  - cbn zeta in *. cbn [Filter.filter]. unfold Filter.next.
    destruct (Filter.filter _ rest (all ++ [v]) (S index)) as [all2 out2] eqn:Hrest.
    specialize (IH (all ++ [v]) (S index)). rewrite Hrest in IH. cbn [snd] in *.
    destruct IH as [Hnd Hin].
    assert (Hin' : forall x, In x out2 <-> In x rest /\ x <> v /\ ~ In x all).
    { intros x. rewrite Hin. rewrite in_app_iff. cbn. intuition (subst; auto). }
    destruct (Filter.first_occurrence strict_eq v index (all ++ [v])) eqn:Hp.
    + apply (first_occurrence_spec strict_eq v index all Heq) in Hp.
      cbn [app]. split.
      * constructor; [|exact Hnd]. rewrite Hin'. intuition.
      * intros x. cbn [In]. rewrite Hin'.
        split; [intros [<-|H]; intuition|].
        intros [[<-|H] Hn]; [now left|].
        destruct (strict_eq x v) eqn:Hxv.
        -- apply Heq in Hxv. now left.
        -- right. repeat split; auto. intros ->.
           assert (strict_eq v v = true) by now apply Heq. congruence.
    + assert (Hv : In v all).
      { destruct (in_dec (strict_eq_dec strict_eq Heq) v all) as [H|H].
        - exact H.
        - apply (first_occurrence_spec strict_eq v index all Heq) in H. congruence. }
      cbn [app]. split; [exact Hnd|].
      intros x. rewrite Hin'. cbn [In].
      split; [intuition|]. intros [[<-|H] Hn]; [contradiction|].
      repeat split; auto. intros ->. contradiction.
Qed.

(** X10.  With the predicate of the documentation,
    [all.filter(v => v === value).length === 1], [filter] emits every
    distinct value once, at its first occurrence; and because the history
    outlives a subscription, a later subscription emits no value that an
    earlier one has seen. *)
Theorem filter_first_occurrence_deduplicates
    {T : Type} (strict_eq : T -> T -> bool) (before values : list T) :
  (forall a b, strict_eq a b = true <-> a = b) ->
  let first := snd (Filter.filter (Filter.first_occurrence strict_eq) before [] 0) in
  let second :=
    snd (Filter.filter (Filter.first_occurrence strict_eq) values
           (fst (Filter.filter (Filter.first_occurrence strict_eq) before [] 0)) 0) in
  (NoDup first /\ forall x, In x first <-> In x before) /\
  (NoDup second /\ forall x, In x second <-> In x values /\ ~ In x before).
Proof.
  intros Heq. cbn zeta. split.
  - destruct (first_occurrences strict_eq before [] 0 Heq) as [H1 H2].
    split; [exact H1|]. intros x. rewrite H2. cbn. tauto.
  - rewrite (filter_emits _ before [] 0). cbn [fst app].
    apply (first_occurrences strict_eq values before 0 Heq).
Qed.

(** ** filter.changed *)

Lemma last_cons_default {A : Type} (l : list A) (a d : A) :
  last (a :: l) d = last l a.
Proof.
  revert a d; induction l as [|b l IH]; intros a d; [reflexivity|].
  change (last (a :: b :: l) d) with (last (b :: l) d).
  now rewrite !IH.
Qed.

Lemma chain_app {T : Type} (R : T -> T -> bool) (out1 out2 : list T) (v : T) :
  chain R (v :: out1) -> chain R (last out1 v :: out2) -> chain R (v :: out1 ++ out2).
Proof.
  revert v; induction out1 as [|a out1 IH]; intros v Hc1 Hc2.
  - exact Hc2.
  - change (R v a = true /\ chain R (a :: out1)) in Hc1.
    change (R v a = true /\ chain R (a :: out1 ++ out2)).
    destruct Hc1 as [Hva Hc1]. split; [exact Hva|].
    apply IH; [exact Hc1|]. now rewrite last_cons_default in Hc2.
Qed.

Lemma changed_from_some {T K : Type} (strict_eq : K -> K -> bool)
    (compareBy : Filter.CompareBy T K) (values : list T) (l : T) :
  let r := Filter.changed strict_eq compareBy values (Some l) in
  chain (Filter.hasChanged strict_eq compareBy) (l :: snd r) /\
  fst r = Some (last (snd r) l).
Proof.
  revert l; induction values as [|v rest IH]; intros l; cbn zeta.
  - cbn. auto.
  - cbn [Filter.changed Filter.changed_next].
    destruct (Filter.hasChanged strict_eq compareBy l v) eqn:Hch.
    + specialize (IH v). cbn zeta in IH.
      destruct (Filter.changed strict_eq compareBy rest (Some v)) as [l2 out2].
      cbn [fst snd app] in *. destruct IH as [Hc Hl]. split.
      * cbn [chain]. split; [exact Hch|exact Hc].
      * rewrite Hl. now rewrite last_cons_default.
    + specialize (IH l). cbn zeta in IH.
      destruct (Filter.changed strict_eq compareBy rest (Some l)) as [l2 out2].
      cbn [fst snd app] in *. exact IH.
Qed.

Lemma changed_of_chain {T K : Type} (strict_eq : K -> K -> bool)
    (compareBy : Filter.CompareBy T K) (out : list T) (l : T) :
  chain (Filter.hasChanged strict_eq compareBy) (l :: out) ->
  snd (Filter.changed strict_eq compareBy out (Some l)) = out.
Proof.
  revert l; induction out as [|v rest IH]; intros l Hc; [reflexivity|].
  cbn [chain] in Hc. destruct Hc as [Hch Hc].
  cbn [Filter.changed Filter.changed_next]. rewrite Hch.
  specialize (IH v Hc).
  destruct (Filter.changed strict_eq compareBy rest (Some v)) as [l2 out2].
  cbn [snd app] in *. now rewrite IH.
Qed.

(** X11.  In what [filter.changed] emits, every value has changed with
    respect to the one emitted before it; the first value of the first
    subscription always passes, and since the last emitted value is kept
    by the application of the operator, the first value of a later
    subscription passes only if it has changed with respect to the last
    value emitted by the earlier one. *)
Theorem changed_emits_a_chain_of_changes
    {T K : Type} (strict_eq : K -> K -> bool) (compareBy : Filter.CompareBy T K)
    (v : T) (before values : list T) :
  let first := Filter.changed strict_eq compareBy (v :: before) None in
  let second := Filter.changed strict_eq compareBy values (fst first) in
  hd_error (snd first) = Some v /\
  chain (Filter.hasChanged strict_eq compareBy) (snd first ++ snd second).
Proof.
  cbn zeta. cbn [Filter.changed Filter.changed_next].
  pose proof (changed_from_some strict_eq compareBy before v) as H1. cbn zeta in H1.
  destruct (Filter.changed strict_eq compareBy before (Some v)) as [l1 out1].
  cbn [fst snd app hd_error] in *. destruct H1 as [Hc1 ->].
  split; [reflexivity|].
  pose proof (changed_from_some strict_eq compareBy values (last out1 v)) as H2.
  cbn zeta in H2.
  destruct (Filter.changed strict_eq compareBy values (Some (last out1 v))) as [l2 out2].
  cbn [fst snd] in *. destruct H2 as [Hc2 _].
  now apply chain_app.
Qed.

(** X12.  [filter.changed] is idempotent: applied to what it has emitted,
    a fresh application of the operator with the same comparison emits
    all of it again. *)
Theorem changed_is_idempotent
    {T K : Type} (strict_eq : K -> K -> bool) (compareBy : Filter.CompareBy T K)
    (values : list T) :
  snd (Filter.changed strict_eq compareBy
         (snd (Filter.changed strict_eq compareBy values None)) None) =
  snd (Filter.changed strict_eq compareBy values None).
Proof.
  destruct values as [|v rest]; [reflexivity|].
  cbn [Filter.changed Filter.changed_next].
  pose proof (changed_from_some strict_eq compareBy rest v) as H. cbn zeta in H.
  destruct (Filter.changed strict_eq compareBy rest (Some v)) as [l out].
  cbn [fst snd app] in *. destruct H as [Hc _].
  cbn [Filter.changed Filter.changed_next].
  pose proof (changed_of_chain strict_eq compareBy out v Hc) as H.
  destruct (Filter.changed strict_eq compareBy out (Some v)) as [l' out'].
  cbn [snd app] in *. now rewrite H.
Qed.

Lemma changed_keys_from_some {T K : Type} (strict_eq : K -> K -> bool)
    (key : T -> K) (values : list T) (l : T) :
  (forall a b, strict_eq a b = true -> a = b) ->
  key l :: map key (snd (Filter.changed strict_eq (Filter.KeySelectorFunction key)
                           values (Some l)))
  = collapse strict_eq (key l :: map key values).
Proof.
  intros Heq. revert l; induction values as [|v rest IH]; intros l; [reflexivity|].
  cbn [Filter.changed Filter.changed_next Filter.hasChanged map collapse].
  destruct (strict_eq (key l) (key v)) eqn:Hlv; cbn [negb].
  - specialize (IH l).
    destruct (Filter.changed strict_eq _ rest (Some l)) as [l2 out2].
    cbn [snd app] in *. rewrite IH. apply Heq in Hlv. rewrite Hlv. reflexivity.
  - specialize (IH v).
    destruct (Filter.changed strict_eq _ rest (Some v)) as [l2 out2].
    cbn [snd app map] in *. rewrite IH. reflexivity.
Qed.

(** X13.  With a key selector or a property key, when [===] on keys is
    sound, the keys of what [filter.changed] emits are the keys of its
    input with every run of adjacent equal keys collapsed to one; a key
    selector and a property key that read the same key emit the same. *)
Theorem changed_by_key_collapses_runs
    {T K : Type} (strict_eq : K -> K -> bool) (key : T -> K) (values : list T) :
  (forall a b, strict_eq a b = true -> a = b) ->
  map key (snd (Filter.changed strict_eq (Filter.KeySelectorFunction key) values None))
  = collapse strict_eq (map key values) /\
  Filter.changed strict_eq (Filter.PropertyKey key) values None =
  Filter.changed strict_eq (Filter.KeySelectorFunction key) values None.
Proof.
  intros Heq. split.
  - destruct values as [|v rest]; [reflexivity|].
    cbn [Filter.changed Filter.changed_next].
    pose proof (changed_keys_from_some strict_eq key rest v Heq) as H.
    destruct (Filter.changed strict_eq _ rest (Some v)) as [l out].
    cbn [snd app map] in *. exact H.
  - generalize (@None T). induction values as [|v rest IH]; intros l; [reflexivity|].
    cbn [Filter.changed]. 
    replace (Filter.changed_next strict_eq (Filter.PropertyKey key) v l)
      with (Filter.changed_next strict_eq (Filter.KeySelectorFunction key) v l)
      by (destruct l; reflexivity).
    destruct (Filter.changed_next strict_eq _ v l) as [l1 out1]. now rewrite IH.
Qed.

(** ** skipWhile *)

Lemma skipWhile_taking {T : Type} (predicate : Predicate T) (values all : list T)
    (index : nat) :
  Skip.skipWhile predicate values all true index = (all ++ values, values).
Proof.
  revert all; induction values as [|v rest IH]; intros all.
  - cbn. now rewrite app_nil_r.
  - cbn [Skip.skipWhile Skip.next]. rewrite IH, <- app_assoc. reflexivity.
Qed.

(** X14.  [skipWhile] emits a suffix of its input: it drops the longest
    prefix at every position of which the predicate holds (given the
    value, its position and the history up to it), and from the first
    value that fails the predicate on it emits everything without
    consulting the predicate again.  The history handed to the predicate
    starts with what earlier subscriptions have seen. *)
Theorem skipWhile_drops_the_prefix_where_predicate_holds
    {T : Type} (predicate : Predicate T) (values all : list T) (index : nat) :
  exists skipped,
    values = skipped ++ snd (Skip.skipWhile predicate values all false index) /\
    Forall (fun c => predicate (fst (fst c)) (snd (fst c)) (snd c) = true)
      (with_history all index skipped) /\
    match snd (Skip.skipWhile predicate values all false index) with
    | [] => True
    | v :: _ => predicate v (index + length skipped) (all ++ skipped ++ [v]) = false
    end /\
    fst (Skip.skipWhile predicate values all false index) = all ++ values.
Proof.
  revert all index; induction values as [|v rest IH]; intros all index.
  - exists []. cbn. rewrite app_nil_r. repeat split; constructor.
  - cbn [Skip.skipWhile Skip.next].
    destruct (predicate v index (all ++ [v])) eqn:Hp.
    + destruct (IH (all ++ [v]) (S index)) as (skipped & Hv & Hall & Hhd & Hfst).
      destruct (Skip.skipWhile predicate rest (all ++ [v]) false (S index))
        as [all2 out2].
      cbn [fst snd app] in *. exists (v :: skipped).
      split; [cbn; now rewrite <- Hv|].
      split; [rewrite with_history_cons; constructor; [exact Hp|exact Hall]|].
      split.
      * destruct out2 as [|w out2]; [exact I|].
        cbn [length]. rewrite Nat.add_succ_r. rewrite <- app_assoc in Hhd. exact Hhd.
      * now rewrite Hfst, <- app_assoc.
    + rewrite skipWhile_taking. cbn [fst snd app]. exists [].
      split; [reflexivity|]. split; [constructor|].
      split; [cbn; now rewrite Nat.add_0_r|]. now rewrite <- app_assoc.
Qed.

(** * groupByTime with a maximum buffer size *)

Lemma groups_app {T E : Type} (o1 o2 : list (Notification (list T) E)) :
  groups (o1 ++ o2) = groups o1 ++ groups o2.
Proof. unfold groups. apply flat_map_app. Qed.

Lemma groupByTime_values {T E : Type} (min max : Z) (values : list (T * Z))
    (w : GroupByTime.Window T) :
  exists out w',
    GroupByTime.groupByTime (E:=E) min max (emitted_at values) w = (out, Some w') /\
    out = map Next (groups out) /\
    concat (groups out) ++ GroupByTime.buffer w' =
      GroupByTime.buffer w ++ map fst values /\
    Forall (fun g => g <> []) (groups out) /\
    ((1 <= max)%Z -> (Z.of_nat (length (GroupByTime.buffer w)) < max)%Z ->
     Forall (fun g => (Z.of_nat (length g) <= max)%Z) (groups out) /\
     (Z.of_nat (length (GroupByTime.buffer w')) < max)%Z).
Proof.
  revert w; induction values as [|[v t] rest IH]; intros w.
  - exists [], w. cbn. rewrite app_nil_r. repeat split; auto.
  - cbn [emitted_at map fst snd GroupByTime.groupByTime]. unfold GroupByTime.next.
    (* the value joins the buffer *)
    set (b := GroupByTime.buffer w ++ [v]).
    assert (Hlen : length b = S (length (GroupByTime.buffer w)))
      by (unfold b; rewrite length_app; cbn; lia).
    assert (Hpos : (0 <? length b) = true) by (apply Nat.ltb_lt; lia).
    destruct ((Z.of_nat (length b) >=? max)%Z ||
              (t - GroupByTime.windowStart w >=? min)%Z) eqn:Hfull.
    + rewrite Hpos.
      destruct (IH {| GroupByTime.buffer := []; GroupByTime.windowStart := t |})
        as (out & w' & Hrun & Hnext & Hcat & Hne & Hbound).
      fold (emitted_at (E:=E) rest). rewrite Hrun.
      exists ([Next b] ++ out), w'. split; [reflexivity|].
      rewrite groups_app. cbn [groups flat_map app concat GroupByTime.buffer map] in *.
      split; [now rewrite <- Hnext|].
      split; [rewrite <- app_assoc, Hcat; unfold b; now rewrite <- app_assoc|].
      split; [constructor; [unfold b; now destruct (GroupByTime.buffer w)|exact Hne]|].
      intros Hmax Hw. destruct (Hbound Hmax ltac:(cbn; lia)) as [Hb1 Hb2].
      split; [constructor; [lia|exact Hb1]|exact Hb2].
    + apply orb_false_iff in Hfull. destruct Hfull as [Hfull _].
      destruct (IH {| GroupByTime.buffer := b;
                      GroupByTime.windowStart := GroupByTime.windowStart w |})
        as (out & w' & Hrun & Hnext & Hcat & Hne & Hbound).
      fold (emitted_at (E:=E) rest). rewrite Hrun.
      exists out, w'. split; [reflexivity|].
      cbn [GroupByTime.buffer app] in *.
      split; [exact Hnext|].
      split; [rewrite Hcat; unfold b; now rewrite <- app_assoc|].
      split; [exact Hne|].
      intros Hmax Hw. apply Hbound; [exact Hmax|]. lia.
Qed.

Lemma groupByTime_app {T E : Type} (min max : Z) (values : list (T * Z))
    (rest : list (Notification T E * Z)) (w w1 : GroupByTime.Window T)
    (out1 : list (Notification (list T) E)) :
  GroupByTime.groupByTime min max (emitted_at values) w = (out1, Some w1) ->
  GroupByTime.groupByTime min max (emitted_at values ++ rest) w =
  (out1 ++ fst (GroupByTime.groupByTime min max rest w1),
   snd (GroupByTime.groupByTime min max rest w1)).
Proof.
  revert w out1; induction values as [|[v t] values IH]; intros w out1 Hrun.
  - cbn in Hrun. injection Hrun as <- <-. cbn.
    now destruct (GroupByTime.groupByTime min max rest w).
  - cbn [emitted_at map fst snd GroupByTime.groupByTime app] in *.
    destruct (GroupByTime.next min max v t w) as [w0 o0].
    fold (emitted_at (E:=E) values) in *.
    destruct (GroupByTime.groupByTime min max (emitted_at values) w0)
      as [o2 w2] eqn:Hrest.
    injection Hrun as <- ->. rewrite (IH _ _ Hrest). now rewrite app_assoc.
Qed.

(** X15.  The groups conserve the values: at any time the groups emitted
    so far, concatenated, followed by the buffer are the values received,
    in order.  When the source completes the buffer is flushed before the
    completion, and when it fails the buffer is flushed before the error:
    in both cases the groups concatenated are all the values received and
    the terminal notification comes last. *)
Theorem groupByTime_conserves_the_values
    {T E : Type} (min max now : Z) (values : list (T * Z)) (err : E) (at_end : Z) :
  (exists out w,
      GroupByTime.groupByTime (E:=E) min max (emitted_at values)
        (GroupByTime.subscribed now) = (out, Some w) /\
      concat (groups out) ++ GroupByTime.buffer w = map fst values) /\
  (exists gs,
      GroupByTime.groupByTime min max (emitted_at values ++ [(Complete, at_end)])
        (GroupByTime.subscribed now) = (map Next gs ++ [@Complete (list T) E], None) /\
      concat gs = map fst values) /\
  (exists gs,
      GroupByTime.groupByTime min max (emitted_at values ++ [(Error err, at_end)])
        (GroupByTime.subscribed now) = (map Next gs ++ [Error err], None) /\
      concat gs = map fst values).
Proof.
  destruct (groupByTime_values (E:=E) min max values (GroupByTime.subscribed now))
    as (out & w & Hrun & Hout & Hcat & Hne & _).
  cbn [GroupByTime.subscribed GroupByTime.buffer app] in Hcat.
  split; [exists out, w; auto|].
  assert (Hflush : forall w0 : GroupByTime.Window T,
             (if 0 <? length (GroupByTime.buffer w0)
              then [@Next (list T) E (GroupByTime.buffer w0)] else []) =
             map Next (match GroupByTime.buffer w0 with [] => [] | _ => [GroupByTime.buffer w0] end)
             /\ concat (match GroupByTime.buffer w0 with [] => [] | _ => [GroupByTime.buffer w0] end)
                = GroupByTime.buffer w0).
  { intros w0. destruct (GroupByTime.buffer w0); cbn; [auto|]. now rewrite app_nil_r. }
  destruct (Hflush w) as [Hf1 Hf2].
  split.
  - exists (groups out ++ match GroupByTime.buffer w with [] => [] | _ => [GroupByTime.buffer w] end).
    rewrite (groupByTime_app _ _ _ _ _ Hrun). cbn [GroupByTime.groupByTime fst snd].
    unfold GroupByTime.complete. rewrite Hf1, map_app, concat_app, Hf2, Hcat.
    rewrite <- Hout, app_assoc. auto.
  - exists (groups out ++ match GroupByTime.buffer w with [] => [] | _ => [GroupByTime.buffer w] end).
    rewrite (groupByTime_app _ _ _ _ _ Hrun). cbn [GroupByTime.groupByTime fst snd].
    unfold GroupByTime.error. rewrite Hf1, map_app, concat_app, Hf2, Hcat.
    rewrite <- Hout, app_assoc. auto.
Qed.

(** X16.  With [max] at least 1, no group is empty and no group holds more
    than [max] values, the group flushed at completion included. *)
Theorem groupByTime_groups_are_bounded
    {T E : Type} (min max now at_end : Z) (values : list (T * Z)) :
  (1 <= max)%Z ->
  Forall (fun g => g <> [] /\ (Z.of_nat (length g) <= max)%Z)
    (groups (fst (GroupByTime.groupByTime (E:=E) min max
                    (emitted_at values ++ [(Complete, at_end)])
                    (GroupByTime.subscribed now)))).
Proof.
  intros Hmax.
  destruct (groupByTime_values (E:=E) min max values (GroupByTime.subscribed now))
    as (out & w & Hrun & _ & _ & Hne & Hbound).
  destruct (Hbound Hmax ltac:(cbn; lia)) as [Hle Hbuf].
  rewrite (groupByTime_app _ _ _ _ _ Hrun). cbn [GroupByTime.groupByTime fst].
  rewrite groups_app. apply Forall_app. split.
  - rewrite Forall_forall in *. intros g Hg. split; [now apply Hne|now apply Hle].
  - unfold GroupByTime.complete.
    destruct (GroupByTime.buffer w) as [|v b] eqn:Hb;
      cbn [length Nat.ltb Nat.leb groups flat_map app]; [constructor|].
    constructor; [|constructor]. split; [discriminate|]. lia.
Qed.

(** X17.  With [max] at most 1 every value is emitted at once as a group
    of its own, whatever the clock says, and nothing stays buffered. *)
Theorem groupByTime_max_one_emits_singletons
    {T E : Type} (min max now : Z) (values : list (T * Z)) :
  (max <= 1)%Z ->
  GroupByTime.groupByTime (E:=E) min max (emitted_at values) (GroupByTime.subscribed now) =
  (map (fun vt => Next [fst vt]) values,
   Some {| GroupByTime.buffer := [];
           GroupByTime.windowStart := last (map snd values) now |}).
Proof.
  intros Hmax. revert now; induction values as [|[v t] rest IH]; intros now.
  - reflexivity.
  - cbn [emitted_at map fst snd GroupByTime.groupByTime]. unfold GroupByTime.next.
    cbn [GroupByTime.subscribed GroupByTime.buffer app length].
    assert (H : (Z.of_nat 1 >=? max)%Z = true) by (apply Z.geb_le; lia).
    rewrite H. cbn [orb Nat.ltb Nat.leb].
    fold (emitted_at (E:=E) rest).
    change {| GroupByTime.buffer := []; GroupByTime.windowStart := t |}
      with (GroupByTime.subscribed (T:=T) t).
    rewrite IH. cbn [app]. now rewrite last_cons_default.
Qed.

(** * tickWithFallback *)

Section TickFacts.

Context {T E : Type}.
Variable timeout : nat.
Variable fallback : list (Notification T E).

Local Abbreviation Sub := (Timeout.Subscription T E).
Local Abbreviation run := (fold_left (Timeout.step timeout fallback)).

Lemma tick_value (v : T) (gap : nat) (rcv : list (Notification T E)) :
  Timeout.source_notify timeout (Next v) (Timeout.listening timeout gap rcv) =
  Timeout.listening timeout 0 (rcv ++ [Next v]).
Proof. unfold Timeout.listening. rewrite Nat.sub_0_r. reflexivity. Qed.

Lemma subscribed_listening :
  Timeout.subscribed (T:=T) (E:=E) timeout = Timeout.listening timeout 0 [].
Proof. unfold Timeout.listening. rewrite Nat.sub_0_r. reflexivity. Qed.

Lemma tick_lively (events : list (Timeout.Event T E)) (gap : nat)
    (rcv : list (Notification T E)) :
  Timeout.lively timeout gap events = true ->
  exists gap',
    run events (Timeout.listening timeout gap rcv) =
    Timeout.listening timeout gap' (rcv ++ map Next (Timeout.source_values events)).
Proof.
  revert gap rcv; induction events as [|ev events IH]; intros gap rcv Hl.
  - exists gap. cbn. now rewrite app_nil_r.
  - destruct ev as [[v|e|]| | |]; cbn [Timeout.lively] in Hl; try discriminate.
    + destruct (IH 0 (rcv ++ [Next v]) Hl) as [g' Hg'].
      exists g'. cbn [fold_left Timeout.step]. rewrite tick_value, Hg'. cbn [Timeout.source_values flat_map app map].
      now rewrite <- app_assoc.
    + apply andb_prop in Hl. destruct Hl as [Hlt Hl]. apply Nat.ltb_lt in Hlt.
      destruct (IH (S gap) rcv Hl) as [g' Hg'].
      exists g'. cbn [fold_left Timeout.step Timeout.source_values flat_map app].
      unfold Timeout.elapse. cbn [Timeout.listening Timeout.timeoutHandle].
      assert (Hgt : (timeout - gap <=? 1) = false) by (apply Nat.leb_gt; lia).
      rewrite Hgt. cbn.
      replace (timeout - gap - 1) with (timeout - S gap) by lia. exact Hg'.
Qed.

(** X18.  While the source emits values with fewer than [timeout] units of
    time between the subscription and the first value and between one
    value and the next, the subscriber is handed exactly the values of
    the source, the source stays subscribed and the fallback is never
    subscribed. *)
Theorem tick_forwards_a_lively_source (events : list (Timeout.Event T E)) :
  Timeout.lively timeout 0 events = true ->
  Timeout.received (Timeout.tickWithFallback timeout fallback events) =
    map Next (Timeout.source_values events) /\
  Timeout.fallbackSubscribes (Timeout.tickWithFallback timeout fallback events) = 0 /\
  Timeout.sourceSubscription (Timeout.tickWithFallback timeout fallback events) = true /\
  Timeout.closed (Timeout.tickWithFallback timeout fallback events) = false.
Proof.
  intros Hl. unfold Timeout.tickWithFallback.
  rewrite subscribed_listening.
  destruct (tick_lively events 0 [] Hl) as [g' ->]. cbn. auto.
Qed.

Lemma fallback_delivered (ns : list (Notification T E)) (rcv : list (Notification T E)) :
  let s := Timeout.fallback_deliver ns (Timeout.switching rcv) in
  Timeout.received s = rcv ++ through_terminal ns /\
  Timeout.fallbackSubscribes s = 1 /\ Timeout.sourceSubscription s = false /\
  Timeout.isCompleted s = true /\ Timeout.timeoutHandle s = None /\
  (Forall is_value ns -> Timeout.fallbackSubscription s = true /\ Timeout.closed s = false).
Proof.
  revert rcv; induction ns as [|n ns IH]; intros rcv; cbn zeta.
  - cbn. rewrite app_nil_r. auto 10.
  - cbn [Timeout.fallback_deliver through_terminal].
    destruct n as [v|e|].
    + change (Timeout.fallback_notify (Next v) (Timeout.switching rcv))
        with (Timeout.switching (rcv ++ [Next v])).
      destruct (IH (rcv ++ [Next v])) as (H1 & H2 & H3 & H4 & H5 & H6).
      rewrite H1, <- app_assoc. split; [reflexivity|].
      repeat (split; [assumption|]).
      intros Hv. apply H6. now inversion Hv.
    + assert (Hd : forall l s, Timeout.fallbackSubscription s = false ->
                     Timeout.fallback_deliver (T:=T) (E:=E) l s = s).
      { induction l as [|m l IHl]; intros s Hs; [reflexivity|].
        cbn [Timeout.fallback_deliver]. unfold Timeout.fallback_notify at 1.
        rewrite Hs. now apply IHl. }
      rewrite Hd by reflexivity. cbn. repeat (split; [reflexivity|]).
      intros Hv. inversion Hv. contradiction.
    + assert (Hd : forall l s, Timeout.fallbackSubscription s = false ->
                     Timeout.fallback_deliver (T:=T) (E:=E) l s = s).
      { induction l as [|m l IHl]; intros s Hs; [reflexivity|].
        cbn [Timeout.fallback_deliver]. unfold Timeout.fallback_notify at 1.
        rewrite Hs. now apply IHl. }
      rewrite Hd by reflexivity. cbn. repeat (split; [reflexivity|]).
      intros Hv. inversion Hv. contradiction.
Qed.

Lemma tick_silence (k gap : nat) (rcv : list (Notification T E)) :
  S k = timeout - gap ->
  run (repeat Timeout.Elapse (S k)) (Timeout.listening timeout gap rcv) =
  Timeout.fallback_deliver fallback (Timeout.switching rcv).
Proof.
  revert gap; induction k as [|k IH]; intros gap Hk.
  - cbn [repeat fold_left Timeout.step]. unfold Timeout.elapse.
    cbn [Timeout.listening Timeout.timeoutHandle]. rewrite <- Hk. reflexivity.
  - change (repeat Timeout.Elapse (S (S k)))
      with (@Timeout.Elapse T E :: repeat Timeout.Elapse (S k)).
    cbn [fold_left Timeout.step]. unfold Timeout.elapse at 1.
    cbn [Timeout.listening Timeout.timeoutHandle]. rewrite <- Hk.
    cbn [Nat.leb]. 
    replace (S (S k) - 1) with (timeout - S gap) by lia.
    apply (IH (S gap)). lia.
Qed.

Lemma tick_silence_from (n gap : nat) (rcv : list (Notification T E)) :
  n = timeout - gap -> 0 < n ->
  run (repeat Timeout.Elapse n) (Timeout.listening timeout gap rcv) =
  Timeout.fallback_deliver fallback (Timeout.switching rcv).
Proof.
  intros Hn Hpos. destruct n as [|k]; [lia|]. now apply tick_silence.
Qed.

(** X19.  [timeout] units of time without a value of the source, counted
    from the subscription or from the last value, make the operator switch:
    the source is unsubscribed, the fallback is subscribed once, and the
    subscriber is handed, after the values of the source, what the
    fallback emits, up to and including its completion or error. *)
Theorem tick_switches_after_silence (before : list (Timeout.Event T E)) (v : T) :
  0 < timeout ->
  Timeout.lively timeout 0 before = true ->
  Timeout.received
    (Timeout.tickWithFallback timeout fallback (repeat Timeout.Elapse timeout))
    = through_terminal fallback /\
  Timeout.received
    (Timeout.tickWithFallback timeout fallback
       (before ++ [Timeout.value v] ++ repeat Timeout.Elapse timeout))
    = map Next (Timeout.source_values before ++ [v]) ++ through_terminal fallback /\
  Timeout.fallbackSubscribes
    (Timeout.tickWithFallback timeout fallback
       (before ++ [Timeout.value v] ++ repeat Timeout.Elapse timeout)) = 1 /\
  Timeout.sourceSubscription
    (Timeout.tickWithFallback timeout fallback
       (before ++ [Timeout.value v] ++ repeat Timeout.Elapse timeout)) = false.
Proof.
  intros Hpos Hl. unfold Timeout.tickWithFallback. rewrite subscribed_listening.
  assert (Hs : forall rcv,
             run (repeat Timeout.Elapse timeout) (Timeout.listening timeout 0 rcv) =
             Timeout.fallback_deliver fallback (Timeout.switching rcv)).
  { intros rcv. apply tick_silence_from; lia. }
  split.
  - rewrite Hs. now destruct (fallback_delivered fallback []) as (-> & _).
  - rewrite !fold_left_app.
    destruct (tick_lively before 0 [] Hl) as [g' ->].
    cbn [fold_left Timeout.step Timeout.value]. rewrite tick_value, Hs.
    destruct (fallback_delivered fallback
                (([] ++ map Next (Timeout.source_values before)) ++ [Next v]))
      as (-> & -> & -> & _).
    cbn [app]. rewrite map_app. auto.
Qed.

Lemma fallback_deliver_frame (ns : list (Notification T E)) (s : Sub) :
  Timeout.isCompleted s = true -> Timeout.sourceSubscription s = false ->
  let s' := Timeout.fallback_deliver ns s in
  Timeout.isCompleted s' = true /\ Timeout.sourceSubscription s' = false /\
  Timeout.fallbackSubscribes s' = Timeout.fallbackSubscribes s.
Proof.
  revert s; induction ns as [|n ns IH]; intros s Hc Hs; cbn zeta; [auto|].
  cbn [Timeout.fallback_deliver].
  assert (H : Timeout.isCompleted (Timeout.fallback_notify n s) = true /\
              Timeout.sourceSubscription (Timeout.fallback_notify n s) = false /\
              Timeout.fallbackSubscribes (Timeout.fallback_notify n s) =
              Timeout.fallbackSubscribes s).
  { destruct s as [h c src fb k cl rcv]. cbn in *. subst.
    unfold Timeout.fallback_notify, Timeout.subscriber_next, Timeout.subscriber_end.
    destruct fb, cl, n; cbn; auto. }
  destruct H as (H1 & H2 & H3). destruct (IH _ H1 H2) as (G1 & G2 & G3).
  cbn zeta in *. rewrite G3, H3. auto.
Qed.

Lemma tick_step_invariant (s : Sub) (ev : Timeout.Event T E) :
  (Timeout.fallbackSubscribes s <= 1 /\
   (Timeout.isCompleted s = false -> Timeout.fallbackSubscribes s = 0) /\
   (Timeout.isCompleted s = true -> Timeout.sourceSubscription s = false)) ->
  let s' := Timeout.step timeout fallback s ev in
  Timeout.fallbackSubscribes s' <= 1 /\
  (Timeout.isCompleted s' = false -> Timeout.fallbackSubscribes s' = 0) /\
  (Timeout.isCompleted s' = true -> Timeout.sourceSubscription s' = false).
Proof.
  intros (H1 & H2 & H3). cbn zeta.
  destruct ev as [n| |n|]; cbn [Timeout.step].
  - destruct s as [h c src fb k cl rcv]. cbn in *.
    unfold Timeout.source_notify, Timeout.subscriber_next, Timeout.subscriber_end,
      Timeout.resetTimeout, Timeout.teardown.
    destruct src, c, cl, n; cbn; auto; repeat split; auto; try discriminate;
      intros; try lia; try (apply H3; reflexivity); try (apply H2; reflexivity).
  - unfold Timeout.elapse. destruct (Timeout.timeoutHandle s) as [r|] eqn:Hh; [|auto].
    destruct (r <=? 1); [|destruct s; cbn in *; auto].
    unfold Timeout.fire. destruct (Timeout.isCompleted s) eqn:Hc.
    + cbn. repeat split; auto; discriminate.
    + match goal with |- context [Timeout.fallback_deliver fallback ?d] =>
        destruct (@fallback_deliver_frame fallback d eq_refl eq_refl) as (G1 & G2 & G3)
      end.
      cbn zeta in *. rewrite G1, G2, G3. cbn. rewrite (H2 eq_refl).
      repeat split; auto; discriminate.
  - destruct s as [h c src fb k cl rcv]. cbn in *.
    unfold Timeout.fallback_notify, Timeout.subscriber_next, Timeout.subscriber_end,
      Timeout.teardown.
    destruct fb, cl, n; cbn; auto; repeat split; auto; discriminate.
  - destruct s as [h c src fb k cl rcv]. cbn in *.
    unfold Timeout.unsubscribe, Timeout.teardown.
    destruct cl; cbn; auto; repeat split; auto; discriminate.
Qed.

(** X20.  Whatever happens (values, errors and completions of the source
    and of the fallback, time, unsubscription, in any order), the fallback
    is subscribed at most once; and once it has been subscribed the source
    is no longer listened to: a notification of the source changes
    nothing. *)
Theorem tick_subscribes_the_fallback_at_most_once (events : list (Timeout.Event T E)) :
  Timeout.fallbackSubscribes (Timeout.tickWithFallback timeout fallback events) <= 1 /\
  (Timeout.fallbackSubscribes (Timeout.tickWithFallback timeout fallback events) = 1 ->
   forall n,
     Timeout.source_notify timeout n (Timeout.tickWithFallback timeout fallback events) =
     Timeout.tickWithFallback timeout fallback events).
Proof.
  assert (H : let s := Timeout.tickWithFallback timeout fallback events in
              Timeout.fallbackSubscribes s <= 1 /\
              (Timeout.isCompleted s = false -> Timeout.fallbackSubscribes s = 0) /\
              (Timeout.isCompleted s = true -> Timeout.sourceSubscription s = false)).
  { unfold Timeout.tickWithFallback.
    induction events as [|ev events IH] using rev_ind.
    - cbn. repeat split; auto; discriminate.
    - rewrite fold_left_app. cbn [fold_left]. apply tick_step_invariant, IH. }
  cbn zeta in H. destruct H as (H1 & H2 & H3). split; [exact H1|].
  intros Hone n. unfold Timeout.source_notify.
  destruct (Timeout.isCompleted _) eqn:Hc.
  - now rewrite (H3 eq_refl).
  - rewrite (H2 eq_refl) in Hone. discriminate.
Qed.

Lemma finished_step (rcv : list (Notification T E)) (ev : Timeout.Event T E) :
  Timeout.step timeout fallback (Timeout.finished rcv) ev = Timeout.finished rcv.
Proof. destruct ev as [[v|e|]| |[v|e|]|]; reflexivity. Qed.

Lemma finished_run (rcv : list (Notification T E)) (events : list (Timeout.Event T E)) :
  run events (Timeout.finished rcv) = Timeout.finished rcv.
Proof.
  induction events as [|ev events IH]; [reflexivity|].
  cbn [fold_left]. now rewrite finished_step.
Qed.

(** X21.  A completion or an error of the source that comes before any
    timeout is handed to the subscriber and disarms the timer: whatever
    follows, however much time passes, the fallback is never subscribed
    and the subscriber is handed nothing more. *)
Theorem tick_source_termination_disarms_the_timer
    (before after : list (Timeout.Event T E)) (n : Notification T E) :
  Timeout.lively timeout 0 before = true -> ~ is_value n ->
  Timeout.tickWithFallback timeout fallback (before ++ [Timeout.FromSource n] ++ after) =
  Timeout.finished (map Next (Timeout.source_values before) ++ [n]).
Proof.
  intros Hl Hn. unfold Timeout.tickWithFallback. rewrite subscribed_listening.
  rewrite !fold_left_app. destruct (tick_lively before 0 [] Hl) as [g' ->].
  cbn [fold_left Timeout.step app].
  replace (Timeout.source_notify timeout n
             (Timeout.listening timeout g' (map Next (Timeout.source_values before))))
    with (Timeout.finished (map Next (Timeout.source_values before) ++ [n]))
    by (destruct n as [v|e|]; [destruct Hn; exact I|reflexivity|reflexivity]).
  apply finished_run.
Qed.

(** X22.  Unsubscribing after the switch stops the delivery but does not
    unsubscribe from the fallback: with a fallback that is still emitting,
    the subscription to it stays open after the subscriber has been
    unsubscribed, and what it emits then is handed to nobody. *)
Theorem tick_unsubscribe_leaves_the_fallback_subscribed
    (before : list (Timeout.Event T E)) (v : T) (n : Notification T E) :
  0 < timeout -> Timeout.lively timeout 0 before = true -> Forall is_value fallback ->
  let s := Timeout.tickWithFallback timeout fallback
             (before ++ [Timeout.value v] ++ repeat Timeout.Elapse timeout
              ++ [Timeout.Unsubscribe]) in
  Timeout.closed s = true /\ Timeout.fallbackSubscription s = true /\
  Timeout.received (Timeout.fallback_notify n s) = Timeout.received s.
Proof.
  intros Hpos Hl Hv. cbn zeta. unfold Timeout.tickWithFallback.
  rewrite subscribed_listening, !app_assoc, fold_left_app, <- !app_assoc.
  rewrite !fold_left_app. destruct (tick_lively before 0 [] Hl) as [g' ->].
  cbn [fold_left Timeout.step Timeout.value]. rewrite tick_value.
  rewrite tick_silence_from by lia.
  destruct (fallback_delivered fallback
              (([] ++ map Next (Timeout.source_values before)) ++ [Next v]))
    as (_ & _ & _ & _ & _ & H).
  destruct (H Hv) as [Hfb Hcl].
  destruct (Timeout.fallback_deliver fallback _) as [h c src fb k cl rcv].
  cbn in Hfb, Hcl. subst. unfold Timeout.unsubscribe. cbn.
  repeat split. destruct n; reflexivity.
Qed.

End TickFacts.

(** * groupByTime: the window *)

Lemma groupByTime_buffers {T E : Type} (min max : Z) (values : list (T * Z))
    (w : GroupByTime.Window T) :
  (Z.of_nat (length (GroupByTime.buffer w) + length values) < max)%Z ->
  Forall (fun vt => (snd vt - GroupByTime.windowStart w < min)%Z) values ->
  GroupByTime.groupByTime (E:=E) min max (emitted_at values) w =
  ([], Some {| GroupByTime.buffer := GroupByTime.buffer w ++ map fst values;
               GroupByTime.windowStart := GroupByTime.windowStart w |}).
Proof.
  revert w; induction values as [|[v t] rest IH]; intros w Hlen Hwin.
  - cbn. rewrite app_nil_r. now destruct w.
  - cbn [emitted_at map fst snd GroupByTime.groupByTime]. unfold GroupByTime.next.
    inversion Hwin as [|? ? Ht Hrest]; subst. cbn [snd] in Ht. cbn [length] in Hlen.
    assert (H1 : (Z.of_nat (length (GroupByTime.buffer w ++ [v])) >=? max)%Z = false).
    { rewrite Z.geb_leb. apply Z.leb_gt. rewrite length_app. cbn [length]. lia. }
    assert (H2 : (t - GroupByTime.windowStart w >=? min)%Z = false)
      by (rewrite Z.geb_leb; apply Z.leb_gt; lia).
    rewrite H1, H2. cbn [orb]. fold (emitted_at (E:=E) rest).
    rewrite IH; cbn [GroupByTime.buffer GroupByTime.windowStart].
    + now rewrite <- app_assoc.
    + rewrite length_app. cbn [length]. lia.
    + exact Hrest.
Qed.

(** X23.  Nothing is emitted before a group is full or its window has
    passed: fewer than [max] values that all arrive less than [min] after
    the subscription stay in the buffer, in order, and the window start is
    not moved.  The window is only examined when a value arrives. *)
Theorem groupByTime_buffers_within_the_window
    {T E : Type} (min max now : Z) (values : list (T * Z)) :
  (Z.of_nat (length values) < max)%Z ->
  Forall (fun vt => (snd vt - now < min)%Z) values ->
  GroupByTime.groupByTime (E:=E) min max (emitted_at values) (GroupByTime.subscribed now) =
  ([], Some {| GroupByTime.buffer := map fst values; GroupByTime.windowStart := now |}).
Proof.
  intros Hlen Hwin.
  apply (@groupByTime_buffers T E min max values (GroupByTime.subscribed now));
    assumption.
Qed.

(** * Instances of the further properties *)

(** [interval(100)] running at t=250: a pause and a resume do what a start does. *)
Lemma start_is_stop_then_start_witness :
  state (run interval_100 running_scenario (createPausable interval_100 None)) <> Stopped /\
  resume interval_100
    (pause interval_100 (run interval_100 running_scenario (createPausable interval_100 None)))
  = start interval_100 (run interval_100 running_scenario (createPausable interval_100 None)).
Proof.
  assert (H : state (run interval_100 running_scenario (createPausable interval_100 None))
              <> Stopped) by (vm_compute; discriminate).
  split; [exact H|].
  exact (proj2 (start_is_stop_then_start interval_100 None running_scenario) H).
Defined.

(** [interval(100)] paused at t=150 and resumed: 250 time units later the
    sink has received 0 and 1 on top of the 0 it had. *)
Lemma cold_timer_restarts_from_zero_witness :
  0 < 100 /\ 50 < 100 /\
  reducer (state (run (@interval nat 100) paused_scenario
                    (createPausable (@interval nat 100) None))) Resume = Running /\
  received
    (run (@interval nat 100) (advanceTimersByTime tt (2 * 100 + 50))
       (command (@interval nat 100) Resume
          (run (@interval nat 100) paused_scenario (createPausable (@interval nat 100) None))))
  = received (run (@interval nat 100) paused_scenario
                (createPausable (@interval nat 100) None))
    ++ map Next (seq 0 2).
Proof.
  assert (H1 : 0 < 100) by lia. assert (H2 : 50 < 100) by lia.
  assert (H3 : reducer (state (run (@interval nat 100) paused_scenario
                                 (createPausable (@interval nat 100) None))) Resume
               = Running) by (vm_compute; reflexivity).
  split; [exact H1|]. split; [exact H2|]. split; [exact H3|].
  exact (cold_timer_restarts_from_zero 2 paused_scenario Resume H1 H2 H3).
Defined.

(** The test '#02' of filter: 1, 2, 1, 3, 2, 1, then a second subscription. *)
Lemma filter_first_occurrence_deduplicates_witness :
  (forall a b : nat, (a =? b) = true <-> a = b) /\
  (let first := snd (Filter.filter (Filter.first_occurrence Nat.eqb) [1; 2; 1; 3; 2; 1] [] 0) in
   let second :=
     snd (Filter.filter (Filter.first_occurrence Nat.eqb) [3; 4; 4]
            (fst (Filter.filter (Filter.first_occurrence Nat.eqb) [1; 2; 1; 3; 2; 1] [] 0)) 0) in
   (NoDup first /\ forall x, In x first <-> In x [1; 2; 1; 3; 2; 1]) /\
   (NoDup second /\ forall x, In x second <-> In x [3; 4; 4] /\ ~ In x [1; 2; 1; 3; 2; 1])).
Proof.
  split; [exact Nat.eqb_eq|].
  exact (filter_first_occurrence_deduplicates Nat.eqb [1; 2; 1; 3; 2; 1] [3; 4; 4] Nat.eqb_eq).
Defined.

(** Values compared by their parity. *)
Lemma changed_by_key_collapses_runs_witness :
  (forall a b : bool, Bool.eqb a b = true -> a = b) /\
  map Nat.even (snd (Filter.changed Bool.eqb (Filter.KeySelectorFunction Nat.even)
                       [1; 3; 2; 4; 5] None))
  = collapse Bool.eqb (map Nat.even [1; 3; 2; 4; 5]).
Proof.
  assert (H : forall a b : bool, Bool.eqb a b = true -> a = b)
    by (intros [] []; cbn; congruence).
  split; [exact H|].
  exact (proj1 (changed_by_key_collapses_runs Bool.eqb Nat.even [1; 3; 2; 4; 5] H)).
Defined.

(** Groups of at most 2 within windows of 1000 ms. *)
Lemma groupByTime_groups_are_bounded_witness :
  (1 <= 2)%Z /\
  Forall (fun g => g <> [] /\ (Z.of_nat (length g) <= 2)%Z)
    (groups (fst (GroupByTime.groupByTime (E:=nat) 1000 2
                    (emitted_at [(1, 10); (2, 20); (3, 1500); (4, 1600); (5, 1700)]
                     ++ [(Complete, 1800)])
                    (GroupByTime.subscribed 0))))%Z.
Proof.
  assert (H : (1 <= 2)%Z) by lia. split; [exact H|].
  exact (groupByTime_groups_are_bounded (E:=nat) 1000 0 1800
           [(1, 10); (2, 20); (3, 1500); (4, 1600); (5, 1700)]%Z H).
Defined.

Lemma groupByTime_max_one_emits_singletons_witness :
  (1 <= 1)%Z /\
  GroupByTime.groupByTime (E:=nat) 1000 1 (emitted_at [(7, 10); (8, 20)]%Z)
    (GroupByTime.subscribed 0%Z) =
  (map (fun vt => Next [fst vt]) [(7, 10); (8, 20)]%Z,
   Some {| GroupByTime.buffer := [];
           GroupByTime.windowStart := last (map snd [(7, 10); (8, 20)]%Z) 0%Z |}).
Proof.
  assert (H : (1 <= 1)%Z) by lia. split; [exact H|].
  exact (groupByTime_max_one_emits_singletons (E:=nat) 1000 0 [(7, 10); (8, 20)]%Z H).
Defined.

Lemma groupByTime_buffers_within_the_window_witness :
  (Z.of_nat (length [(7, 10); (8, 20)]%Z) < 5)%Z /\
  Forall (fun vt : Z * Z => (snd vt - 0 < 1000)%Z) [(7, 10); (8, 20)]%Z /\
  GroupByTime.groupByTime (E:=nat) 1000 5 (emitted_at [(7, 10); (8, 20)]%Z)
    (GroupByTime.subscribed 0%Z) =
  ([], Some {| GroupByTime.buffer := map fst [(7, 10); (8, 20)]%Z;
               GroupByTime.windowStart := 0%Z |}).
Proof.
  assert (H1 : (Z.of_nat (length [(7, 10); (8, 20)]%Z) < 5)%Z) by (cbn; lia).
  assert (H2 : Forall (fun vt : Z * Z => (snd vt - 0 < 1000)%Z) [(7, 10); (8, 20)]%Z)
    by (repeat constructor; cbn; lia).
  split; [exact H1|]. split; [exact H2|].
  exact (@groupByTime_buffers_within_the_window Z nat 1000%Z 5%Z 0%Z [(7, 10); (8, 20)]%Z H1 H2).
Defined.

(** The test '#01' of tickWithFallback, with a timeout of 10: a value, 8
    units of time, a value, 8 units of time. *)
Lemma tick_forwards_a_lively_source_witness :
  Timeout.lively 10 0
    ([Timeout.value (E:=nat) 1] ++ repeat Timeout.Elapse 8 ++
     [Timeout.value 2] ++ repeat Timeout.Elapse 8) = true /\
  Timeout.received
    (Timeout.tickWithFallback 10 [Next 99; Complete]
       ([Timeout.value (E:=nat) 1] ++ repeat Timeout.Elapse 8 ++
        [Timeout.value 2] ++ repeat Timeout.Elapse 8))
  = map Next (Timeout.source_values
                ([Timeout.value (E:=nat) 1] ++ repeat Timeout.Elapse 8 ++
                 [Timeout.value 2] ++ repeat Timeout.Elapse 8)).
Proof.
  assert (H : Timeout.lively 10 0
                ([Timeout.value (E:=nat) 1] ++ repeat Timeout.Elapse 8 ++
                 [Timeout.value 2] ++ repeat Timeout.Elapse 8) = true) by reflexivity.
  split; [exact H|].
  exact (proj1 (tick_forwards_a_lively_source 10 [Next 99; Complete] _ H)).
Defined.

Lemma tick_switches_after_silence_witness :
  0 < 10 /\
  Timeout.lively 10 0 ([Timeout.value (E:=nat) 1] ++ repeat Timeout.Elapse 8) = true /\
  Timeout.received
    (Timeout.tickWithFallback 10 [Next 99; Complete]
       (([Timeout.value (E:=nat) 1] ++ repeat Timeout.Elapse 8) ++
        [Timeout.value 2] ++ repeat Timeout.Elapse 10))
  = map Next (Timeout.source_values ([Timeout.value (E:=nat) 1] ++ repeat Timeout.Elapse 8)
              ++ [2])
    ++ through_terminal [Next 99; Complete].
Proof.
  assert (H1 : 0 < 10) by lia.
  assert (H2 : Timeout.lively 10 0 ([Timeout.value (E:=nat) 1] ++ repeat Timeout.Elapse 8)
               = true) by reflexivity.
  split; [exact H1|]. split; [exact H2|].
  exact (proj1 (proj2 (tick_switches_after_silence [Next 99; Complete] _ 2 H1 H2))).
Defined.

Lemma tick_subscribes_the_fallback_at_most_once_witness :
  Timeout.fallbackSubscribes
    (Timeout.tickWithFallback 3 [Next 99] (repeat (@Timeout.Elapse nat nat) 3)) = 1 /\
  Timeout.source_notify 3 (Next 5)
    (Timeout.tickWithFallback 3 [Next 99] (repeat (@Timeout.Elapse nat nat) 3))
  = Timeout.tickWithFallback 3 [Next 99] (repeat (@Timeout.Elapse nat nat) 3).
Proof.
  assert (H : Timeout.fallbackSubscribes
                (Timeout.tickWithFallback 3 [Next 99] (repeat (@Timeout.Elapse nat nat) 3))
              = 1) by reflexivity.
  split; [exact H|].
  exact (proj2 (tick_subscribes_the_fallback_at_most_once 3 [Next 99]
                  (repeat (@Timeout.Elapse nat nat) 3)) H (Next 5)).
Defined.

(** The test '#03' of tickWithFallback: the source completes before the timeout. *)
Lemma tick_source_termination_disarms_the_timer_witness :
  Timeout.lively 10 0 ([Timeout.value (E:=nat) 1] ++ repeat Timeout.Elapse 5) = true /\
  ~ is_value (@Complete nat nat) /\
  Timeout.tickWithFallback 10 [Next 99; Complete]
    (([Timeout.value (E:=nat) 1] ++ repeat Timeout.Elapse 5) ++
     [Timeout.FromSource Complete] ++ repeat Timeout.Elapse 20)
  = Timeout.finished
      (map Next (Timeout.source_values ([Timeout.value (E:=nat) 1] ++ repeat Timeout.Elapse 5))
       ++ [Complete]).
Proof.
  assert (H1 : Timeout.lively 10 0 ([Timeout.value (E:=nat) 1] ++ repeat Timeout.Elapse 5)
               = true) by reflexivity.
  assert (H2 : ~ is_value (@Complete nat nat)) by (cbn; tauto).
  split; [exact H1|]. split; [exact H2|].
  exact (@tick_source_termination_disarms_the_timer nat nat 10 [Next 99; Complete] _
           (repeat Timeout.Elapse 20) Complete H1 H2).
Defined.

Lemma tick_unsubscribe_leaves_the_fallback_subscribed_witness :
  0 < 10 /\ Timeout.lively 10 0 (@nil (Timeout.Event nat nat)) = true /\
  Forall is_value [@Next nat nat 99] /\
  Timeout.fallbackSubscription
    (Timeout.tickWithFallback 10 [@Next nat nat 99]
       ([] ++ [Timeout.value 1] ++ repeat Timeout.Elapse 10 ++ [Timeout.Unsubscribe]))
  = true.
Proof.
  assert (H1 : 0 < 10) by lia.
  assert (H2 : Timeout.lively 10 0 (@nil (Timeout.Event nat nat)) = true) by reflexivity.
  assert (H3 : Forall is_value [@Next nat nat 99]) by (repeat constructor).
  split; [exact H1|]. split; [exact H2|]. split; [exact H3|].
  exact (proj1 (proj2 (@tick_unsubscribe_leaves_the_fallback_subscribed
                         nat nat 10 [Next 99] [] 1 Complete H1 H2 H3))).
Defined.

(** * timeoutWithFallback *)

Section RaceFacts.

Context {T E : Type}.
Variable timeout : nat.
Variable fallback : list (Notification T E).

Local Abbreviation Sub := (Race.Subscription T E).
Local Abbreviation run := (fold_left (Race.step fallback)).

Lemma race_subscribed_waiting :
  Race.subscribed (T:=T) (E:=E) timeout = Race.waiting timeout 0.
Proof. unfold Race.waiting. rewrite Nat.sub_0_r. reflexivity. Qed.

Lemma race_waits (k gap : nat) :
  gap + k < timeout ->
  run (repeat Timeout.Elapse k) (Race.waiting timeout gap) = Race.waiting timeout (gap + k).
Proof.
  revert gap; induction k as [|k IH]; intros gap Hlt.
  - cbn. now rewrite Nat.add_0_r.
  - cbn [repeat fold_left Race.step]. unfold Race.elapse.
    cbn [Race.waiting Race.timer].
    assert (Hgt : (timeout - gap <=? 1) = false) by (apply Nat.leb_gt; lia).
    rewrite Hgt.
    replace (gap + S k) with (S gap + k) by lia. rewrite <- IH by lia.
    unfold Race.waiting. cbn. replace (timeout - gap - 1) with (timeout - S gap) by lia.
    reflexivity.
Qed.

Lemma source_won_closed (rcv : list (Notification T E)) (events : list (Timeout.Event T E)) :
  run events (Race.source_won false rcv) = Race.source_won false rcv.
Proof.
  induction events as [|ev events IH]; [reflexivity|].
  cbn [fold_left]. replace (Race.step fallback (Race.source_won false rcv) ev)
    with (Race.source_won (T:=T) (E:=E) false rcv); [exact IH|].
  destruct ev as [[v|e|]| |[v|e|]|]; reflexivity.
Qed.

Lemma source_won_run (rcv : list (Notification T E)) (events : list (Timeout.Event T E)) :
  Race.source_and_time events = true ->
  exists open,
    run events (Race.source_won true rcv) =
    Race.source_won open (rcv ++ through_terminal (Race.source_notifications events)).
Proof.
  revert rcv; induction events as [|ev events IH]; intros rcv Hev.
  - exists true. cbn. now rewrite app_nil_r.
  - cbn [Race.source_and_time forallb] in Hev. apply andb_prop in Hev.
    destruct Hev as [Hev Hrest].
    destruct ev as [[v|e|]| | |]; try discriminate; cbn [fold_left Race.step].
    + destruct (IH (rcv ++ [Next v]) Hrest) as [open Hopen]. exists open.
      change (Race.source_notify (Next v) (Race.source_won true rcv))
        with (Race.source_won (T:=T) (E:=E) true (rcv ++ [Next v])).
      rewrite Hopen. cbn [Race.source_notifications flat_map app through_terminal].
      now rewrite <- app_assoc.
    + exists false.
      change (Race.source_notify (Error e) (Race.source_won true rcv))
        with (Race.source_won (T:=T) (E:=E) false (rcv ++ [Error e])).
      now rewrite source_won_closed.
    + exists false.
      change (Race.source_notify Complete (Race.source_won true rcv))
        with (Race.source_won (T:=T) (E:=E) false (rcv ++ [Complete])).
      now rewrite source_won_closed.
    + change (Race.elapse fallback (Race.source_won true rcv))
        with (Race.source_won (T:=T) (E:=E) true rcv).
      exact (IH rcv Hrest).
Qed.

(** X24.  [timeoutWithFallback] guards the first value only: when the
    source emits a value less than [timeout] after the subscription, the
    timer is cancelled for good; however long the source is silent
    afterwards the fallback is never subscribed, and the subscriber is
    handed what the source emits, up to and including its completion or
    error. *)
Theorem timeout_guards_the_first_value_only
    (k : nat) (v : T) (after : list (Timeout.Event T E)) :
  k < timeout -> Race.source_and_time after = true ->
  Race.received
    (Race.timeoutWithFallback timeout fallback
       (repeat Timeout.Elapse k ++ [Timeout.value v] ++ after))
  = Next v :: through_terminal (Race.source_notifications after) /\
  Race.fallbackSubscribes
    (Race.timeoutWithFallback timeout fallback
       (repeat Timeout.Elapse k ++ [Timeout.value v] ++ after)) = 0.
Proof.
  intros Hk Hafter. unfold Race.timeoutWithFallback.
  rewrite race_subscribed_waiting, !fold_left_app, race_waits by lia.
  cbn [fold_left Race.step Timeout.value].
  change (Race.source_notify (Next v) (Race.waiting timeout (0 + k)))
    with (Race.source_won (T:=T) (E:=E) true [Next v]).
  destruct (source_won_run [Next v] after Hafter) as [open ->]. cbn. auto.
Qed.

Lemma race_fire (ns : list (Notification T E)) (sub src : bool)
    (rcv : list (Notification T E)) :
  let s1 :=
    Race.fallback_deliver ns
      {| Race.subscriptions := sub; Race.sourceSubscription := src; Race.timer := None;
         Race.isComplete := false; Race.innerSubscriber := true;
         Race.fallbackSubscribes := 1; Race.closed := false; Race.received := rcv |} in
  let s2 :=
    if Race.closed s1 then s1
    else Race.checkComplete
           {| Race.subscriptions := Race.subscriptions s1;
              Race.sourceSubscription := Race.sourceSubscription s1;
              Race.timer := Race.timer s1; Race.isComplete := true;
              Race.innerSubscriber := Race.innerSubscriber s1;
              Race.fallbackSubscribes := Race.fallbackSubscribes s1;
              Race.closed := Race.closed s1; Race.received := Race.received s1 |} in
  Race.received s2 = rcv ++ through_terminal ns /\ Race.fallbackSubscribes s2 = 1 /\
  (ns = [] -> s2 =
     {| Race.subscriptions := sub; Race.sourceSubscription := src; Race.timer := None;
        Race.isComplete := true; Race.innerSubscriber := true;
        Race.fallbackSubscribes := 1; Race.closed := false; Race.received := rcv |}).
Proof.
  assert (Hd : forall l (s : Sub), Race.innerSubscriber s = false ->
                 Race.fallback_deliver l s = s).
  { induction l as [|m l IHl]; intros s Hs; [reflexivity|].
    cbn [Race.fallback_deliver]. unfold Race.fallback_notify at 1.
    rewrite Hs. now apply IHl. }
  revert sub src rcv; induction ns as [|n ns IH]; intros sub src rcv; cbn zeta.
  - cbn. rewrite app_nil_r. auto.
  - cbn [Race.fallback_deliver through_terminal]. destruct n as [v|e|].
    + destruct sub.
      * destruct (IH false false (rcv ++ [Next v])) as (H1 & H2 & _). cbn zeta in *.
        cbn [Race.fallback_notify Race.innerSubscriber Race.race_next Race.subscriptions
             Race.subscriber_next Race.closed Race.sourceSubscription Race.timer
             Race.isComplete Race.fallbackSubscribes Race.received].
        rewrite H1, H2, <- app_assoc. repeat split; auto. discriminate.
      * destruct (IH false src (rcv ++ [Next v])) as (H1 & H2 & _). cbn zeta in *.
        cbn [Race.fallback_notify Race.innerSubscriber Race.race_next Race.subscriptions
             Race.subscriber_next Race.closed Race.sourceSubscription Race.timer
             Race.isComplete Race.fallbackSubscribes Race.received].
        rewrite H1, H2, <- app_assoc. repeat split; auto. discriminate.
    + rewrite Hd by reflexivity. cbn. repeat split; auto. discriminate.
    + rewrite Hd by reflexivity. cbn. repeat split; auto. discriminate.
Qed.

Lemma race_times_out :
  0 < timeout ->
  run (repeat Timeout.Elapse timeout) (Race.subscribed timeout) =
  Race.fire fallback (Race.waiting timeout (timeout - 1)).
Proof.
  intros Hpos. rewrite race_subscribed_waiting.
  assert (Hrep : repeat (@Timeout.Elapse T E) timeout =
                 repeat Timeout.Elapse (timeout - 1) ++ [Timeout.Elapse]).
  { replace timeout with ((timeout - 1) + 1) at 1 by lia. now rewrite repeat_app. }
  rewrite Hrep, fold_left_app, race_waits by lia.
  cbn [fold_left Race.step]. unfold Race.elapse. cbn [Race.waiting Race.timer].
  assert (Hle : (timeout - (0 + (timeout - 1)) <=? 1) = true) by (apply Nat.leb_le; lia).
  rewrite Hle. reflexivity.
Qed.

(** X25.  When [timeout] units of time pass without any notification of
    the source, the fallback is subscribed, once, and the subscriber is
    handed what the fallback emits while being subscribed, up to and
    including its completion or error; with the default fallback (EMPTY)
    that is a bare completion. *)
Theorem timeout_switches_to_the_fallback :
  0 < timeout ->
  Race.received (Race.timeoutWithFallback timeout fallback (repeat Timeout.Elapse timeout))
  = through_terminal fallback /\
  Race.fallbackSubscribes
    (Race.timeoutWithFallback timeout fallback (repeat Timeout.Elapse timeout)) = 1.
Proof.
  intros Hpos. unfold Race.timeoutWithFallback. rewrite race_times_out by assumption.
  destruct (race_fire fallback true true []) as (H1 & H2 & _). cbn zeta in *.
  unfold Race.fire. cbn [Race.waiting Race.subscriptions Race.sourceSubscription
                          Race.isComplete Race.fallbackSubscribes Race.closed
                          Race.received].
  split; [exact H1|exact H2].
Qed.

(** X26.  A completion or an error of the source that comes before its
    first value and before the timeout ends the race at once: it is
    handed to the subscriber, the fallback is never subscribed, and
    nothing that follows changes anything. *)
Theorem timeout_source_termination_ends_the_race
    (k : nat) (n : Notification T E) (after : list (Timeout.Event T E)) :
  k < timeout -> ~ is_value n ->
  Race.received
    (Race.timeoutWithFallback timeout fallback
       (repeat Timeout.Elapse k ++ [Timeout.FromSource n] ++ after)) = [n] /\
  Race.fallbackSubscribes
    (Race.timeoutWithFallback timeout fallback
       (repeat Timeout.Elapse k ++ [Timeout.FromSource n] ++ after)) = 0.
Proof.
  intros Hk Hn. unfold Race.timeoutWithFallback.
  rewrite race_subscribed_waiting, !fold_left_app, race_waits by lia.
  cbn [fold_left Race.step].
  assert (Hdead : forall events,
             run events
               {| Race.subscriptions := true; Race.sourceSubscription := false;
                  Race.timer := None; Race.isComplete := false;
                  Race.innerSubscriber := false; Race.fallbackSubscribes := 0;
                  Race.closed := true; Race.received := [n] |} =
             {| Race.subscriptions := true; Race.sourceSubscription := false;
                Race.timer := None; Race.isComplete := false;
                Race.innerSubscriber := false; Race.fallbackSubscribes := 0;
                Race.closed := true; Race.received := [n] |}).
  { induction events as [|ev events IH]; [reflexivity|].
    cbn [fold_left]. rewrite <- IH at 2. f_equal.
    destruct ev as [[v|e|]| |[v|e|]|]; reflexivity. }
  destruct n as [v|e|]; [destruct Hn; exact I| |].
  - change (Race.source_notify (Error e) (Race.waiting timeout (0 + k)))
      with {| Race.subscriptions := true; Race.sourceSubscription := false;
              Race.timer := None; Race.isComplete := false;
              Race.innerSubscriber := false; Race.fallbackSubscribes := 0;
              Race.closed := true; Race.received := [@Error T E e] |}.
    rewrite Hdead. auto.
  - change (Race.source_notify Complete (Race.waiting timeout (0 + k)))
      with {| Race.subscriptions := true; Race.sourceSubscription := false;
              Race.timer := None; Race.isComplete := false;
              Race.innerSubscriber := false; Race.fallbackSubscribes := 0;
              Race.closed := true; Race.received := [@Complete T E] |}.
    rewrite Hdead. auto.
Qed.

End RaceFacts.

(** X27.  With a fallback that emits nothing while being subscribed, the
    race is still open after the timeout: a value of the source that
    arrives before the fallback's first value wins it, the fallback is
    unsubscribed, and whatever the fallback would have emitted is handed
    to nobody. *)
Theorem timeout_late_source_beats_a_silent_fallback
    {T E : Type} (timeout : nat) (v : T) (ns : list (Notification T E)) :
  0 < timeout ->
  Race.received
    (Race.timeoutWithFallback timeout []
       (repeat Timeout.Elapse timeout ++ [Timeout.value v] ++ map Timeout.FromFallback ns))
  = [Next v] /\
  Race.innerSubscriber
    (Race.timeoutWithFallback timeout []
       (repeat Timeout.Elapse timeout ++ [Timeout.value v] ++ map Timeout.FromFallback ns))
  = false.
Proof.
  intros Hpos. unfold Race.timeoutWithFallback.
  rewrite !fold_left_app, race_times_out by assumption.
  cbn [fold_left Race.step Timeout.value].
  set (s := Race.source_notify (Next v) (Race.fire [] (Race.waiting timeout (timeout - 1)))).
  assert (Hs : s = {| Race.subscriptions := false; Race.sourceSubscription := true;
                      Race.timer := None; Race.isComplete := true;
                      Race.innerSubscriber := false; Race.fallbackSubscribes := 1;
                      Race.closed := false; Race.received := [@Next T E v] |})
    by reflexivity.
  rewrite Hs. clear s Hs.
  induction ns as [|n ns IH]; [cbn; auto|].
  cbn [map fold_left Race.step]. exact IH.
Qed.

(** The test '#04' of timeoutWithFallback, with a timeout of 10: a value
    at once, 11 units of time, a value and the completion. *)
Lemma timeout_guards_the_first_value_only_witness :
  0 < 10 /\
  Race.source_and_time
    (repeat Timeout.Elapse 11 ++ [Timeout.value (E:=nat) 2; Timeout.FromSource Complete])
  = true /\
  Race.received
    (Race.timeoutWithFallback 10 [Next 99; Complete]
       (repeat Timeout.Elapse 0 ++ [Timeout.value 1] ++
        repeat Timeout.Elapse 11 ++ [Timeout.value (E:=nat) 2; Timeout.FromSource Complete]))
  = Next 1 :: through_terminal
                (Race.source_notifications
                   (repeat Timeout.Elapse 11 ++
                    [Timeout.value (E:=nat) 2; Timeout.FromSource Complete])).
Proof.
  assert (H1 : 0 < 10) by lia.
  assert (H2 : Race.source_and_time
                 (repeat Timeout.Elapse 11 ++
                  [Timeout.value (E:=nat) 2; Timeout.FromSource Complete]) = true)
    by reflexivity.
  split; [exact H1|]. split; [exact H2|].
  exact (proj1 (@timeout_guards_the_first_value_only nat nat 10 [Next 99; Complete]
                  0 1 _ H1 H2)).
Defined.

(** The test '#02' of timeoutWithFallback. *)
Lemma timeout_switches_to_the_fallback_witness :
  0 < 10 /\
  Race.received
    (Race.timeoutWithFallback 10 [@Next nat nat 99; Complete] (repeat Timeout.Elapse 10))
  = through_terminal [Next 99; Complete].
Proof.
  assert (H : 0 < 10) by lia. split; [exact H|].
  exact (proj1 (@timeout_switches_to_the_fallback nat nat 10 [Next 99; Complete] H)).
Defined.

Lemma timeout_source_termination_ends_the_race_witness :
  3 < 10 /\ ~ is_value (@Complete nat nat) /\
  Race.received
    (Race.timeoutWithFallback 10 [Next 99; Complete]
       (repeat Timeout.Elapse 3 ++ [Timeout.FromSource Complete] ++ repeat Timeout.Elapse 20))
  = [@Complete nat nat].
Proof.
  assert (H1 : 3 < 10) by lia.
  assert (H2 : ~ is_value (@Complete nat nat)) by (cbn; tauto).
  split; [exact H1|]. split; [exact H2|].
  exact (proj1 (@timeout_source_termination_ends_the_race nat nat 10 [Next 99; Complete]
                  3 Complete (repeat Timeout.Elapse 20) H1 H2)).
Defined.

Lemma timeout_late_source_beats_a_silent_fallback_witness :
  0 < 10 /\
  Race.received
    (Race.timeoutWithFallback 10 []
       (repeat Timeout.Elapse 10 ++ [Timeout.value 1] ++
        map Timeout.FromFallback [@Next nat nat 7; Complete]))
  = [Next 1].
Proof.
  assert (H : 0 < 10) by lia. split; [exact H|].
  exact (proj1 (@timeout_late_source_beats_a_silent_fallback nat nat 10 1
                  [Next 7; Complete] H)).
Defined.
